(** * CodeMind: the Redis call-graph store, the indexers and the traversals

    A shallow embedding of the indexing core of the repository
    (RedisStore, FunctionIndexer, BatchIndexer, the parser interface and
    CodebaseIndexer), followed by the properties of its specification.

    Conventions of the model:
    - the Redis keyspace is a finite map from key to a hash or a set;
      a command sent to a key of the other kind is answered by an error
      reply (WRONGTYPE), as Redis does;
    - whether the server can be reached is part of the client state and is
      fixed for the duration of one modelled call; a single command sent
      to an unreachable server throws, a pipeline resolves with the
      errors of its commands;
    - numbers are the integers that JavaScript holds exactly, and the
      keyspace does not change while it is scanned;
    - [Date.now()] is an input: the reading is passed as [now];
    - JavaScript exceptions are the [Throw] outcome of a state-and-error
      monad that keeps the writes made before the exception;
    - loops whose termination is not structural carry fuel and end in
      [Diverge] when it runs out; the fuel lemmas show this never happens. *)

From stdpp Require Import gmap strings list fin_maps.
From Stdlib Require Import Ascii ZArith Lia.

#[global] Set Warnings "-clear-no-such-hyp".

Open Scope string_scope.
Open Scope list_scope.

(** ** JavaScript string primitives used by the store *)

Module JS.

(** [s.startsWith(p)] *)
Fixpoint startsWith (p s : string) : bool :=
  match p, s with
  | EmptyString, _ => true
  | String a p', String b s' => if Ascii.eqb a b then startsWith p' s' else false
  | String _ _, EmptyString => false
  end.

(** [s.includes(sub)] *)
Fixpoint includes (sub s : string) : bool :=
  startsWith sub s ||
  match s with
  | EmptyString => false
  | String _ s' => includes sub s'
  end.

(** [s.slice(n)] for [0 <= n] *)
Fixpoint slice (n : nat) (s : string) : string :=
  match n, s with
  | O, _ => s
  | S n', String _ s' => slice n' s'
  | S _, EmptyString => EmptyString
  end.

(** [s.replace(pat, rep)] with a string pattern: only the first
    occurrence is replaced. *)
Fixpoint replace (pat rep s : string) : string :=
  if startsWith pat s then rep +:+ slice (String.length pat) s
  else match s with
       | EmptyString => EmptyString
       | String a s' => String a (replace pat rep s')
       end.

(** [s.endsWith(suf)] *)
Definition endsWith (suf s : string) : bool :=
  (String.length suf <=? String.length s)%nat &&
  bool_decide (slice (String.length s - String.length suf) s = suf).

(** A JavaScript [Set] of strings keeps insertion order; [Array.from]
    lists it in that order. *)
Definition Set_has (x : string) (s : list string) : bool := bool_decide (x ∈ s).

Definition Set_add (x : string) (s : list string) : list string :=
  if Set_has x s then s else s ++ [x].

End JS.

(** ** The Redis server as seen through the ioredis client *)

Module Redis.

(** The value of one hash field.  Redis stores strings; the model keeps a
    number and the JSON text of a string array in decoded form, which is
    what [parseInt] and [JSON.parse] give back in [getFunction].  For a
    number this holds of the integers that [String] writes with all their
    digits, in particular of the safe integers of JavaScript; from 1e21
    on [String] writes exponent notation, of which [parseInt] reads the
    leading digits only, and the decoded form says nothing about that. *)
Inductive hval : Type :=
| HStr (s : string)
| HNum (z : Z)
| HJson (l : list string).

#[global] Instance hval_eq_dec : EqDecision hval.
Proof. solve_decision. Defined.

Inductive rval : Type :=
| RHash (h : gmap string hval)
| RSet (m : gset string).

#[global] Instance rval_eq_dec : EqDecision rval.
Proof. solve_decision. Defined.

Record client : Type := mkClient {
  db : gmap string rval;
  reachable : bool
}.

Inductive error : Type :=
| ConnectionError      (* the server cannot be reached *)
| ReplyError           (* an error reply, e.g. WRONGTYPE *)
| IOError              (* a file could not be read *)
| ParseError.          (* a parser threw *)

Inductive result (A : Type) : Type :=
| Ok (a : A)
| Throw (e : error)
| Diverge.

Arguments Ok {A} a.
Arguments Throw {A} e.
Arguments Diverge {A}.

(** Computations that mutate the store and may throw. *)
Definition M (A : Type) : Type := client -> result A * client.

Definition ret {A} (a : A) : M A := fun c => (Ok a, c).

Definition throw {A} (e : error) : M A := fun c => (Throw e, c).

Definition bind {A B} (m : M A) (k : A -> M B) : M B :=
  fun c =>
    match m c with
    | (Ok a, c') => k a c'
    | (Throw e, c') => (Throw e, c')
    | (Diverge, c') => (Diverge, c')
    end.

(** [try { m } catch (e) { h e }] *)
Definition try_catch {A} (m : M A) (h : error -> M A) : M A :=
  fun c =>
    match m c with
    | (Throw e, c') => h e c'
    | r => r
    end.

(** A read that does not change the store. *)
Definition lift {A} (f : client -> result A) : M A := fun c => (f c, c).

(** A read that cannot fail. *)
Definition read {A} (f : client -> A) : M A := fun c => (Ok (f c), c).

(** [for (const x of l) { await body(x) }] *)
Fixpoint for_each {A} (l : list A) (body : A -> M unit) : M unit :=
  match l with
  | [] => ret tt
  | x :: l' => bind (body x) (fun _ => for_each l' body)
  end.

Definition on_db (f : gmap string rval -> gmap string rval) (c : client) : client :=
  {| db := f (db c); reachable := reachable c |}.

(** [HSET key field value ...]: the given fields overwrite, the others stay. *)
Definition hset (key : string) (fields : gmap string hval) : M unit :=
  fun c =>
    if negb (reachable c) then (Throw ConnectionError, c)
    else match db c !! key with
         | None => (Ok tt, on_db (insert key (RHash fields)) c)
         | Some (RHash h) => (Ok tt, on_db (insert key (RHash (fields ∪ h))) c)
         | Some (RSet _) => (Throw ReplyError, c)
         end.

(** [HGET key field] *)
Definition hget (key field : string) (c : client) : result (option hval) :=
  if negb (reachable c) then Throw ConnectionError
  else match db c !! key with
       | None => Ok None
       | Some (RHash h) => Ok (h !! field)
       | Some (RSet _) => Throw ReplyError
       end.

(** [HGETALL key]: the empty object for a missing key. *)
Definition hgetall (key : string) (c : client) : result (gmap string hval) :=
  if negb (reachable c) then Throw ConnectionError
  else match db c !! key with
       | None => Ok ∅
       | Some (RHash h) => Ok h
       | Some (RSet _) => Throw ReplyError
       end.

(** [HLEN key] *)
Definition hlen (key : string) (c : client) : result nat :=
  if negb (reachable c) then Throw ConnectionError
  else match db c !! key with
       | None => Ok 0
       | Some (RHash h) => Ok (size h)
       | Some (RSet _) => Throw ReplyError
       end.

(** [HDEL key field]: a hash left without fields is removed. *)
Definition hdel (key field : string) : M unit :=
  fun c =>
    if negb (reachable c) then (Throw ConnectionError, c)
    else match db c !! key with
         | None => (Ok tt, c)
         | Some (RHash h) =>
             let h' := delete field h in
             if bool_decide (h' = ∅) then (Ok tt, on_db (delete key) c)
             else (Ok tt, on_db (insert key (RHash h')) c)
         | Some (RSet _) => (Throw ReplyError, c)
         end.

(** [SADD key member] *)
Definition sadd (key member : string) : M unit :=
  fun c =>
    if negb (reachable c) then (Throw ConnectionError, c)
    else match db c !! key with
         | None => (Ok tt, on_db (insert key (RSet {[member]})) c)
         | Some (RSet m) => (Ok tt, on_db (insert key (RSet ({[member]} ∪ m))) c)
         | Some (RHash _) => (Throw ReplyError, c)
         end.

(** [SMEMBERS key]: the empty array for a missing key. *)
Definition smembers (key : string) (c : client) : result (list string) :=
  if negb (reachable c) then Throw ConnectionError
  else match db c !! key with
       | None => Ok []
       | Some (RSet m) => Ok (elements m)
       | Some (RHash _) => Throw ReplyError
       end.

(** [DEL key]: any kind of value. *)
Definition del (key : string) : M unit :=
  fun c =>
    if negb (reachable c) then (Throw ConnectionError, c)
    else (Ok tt, on_db (delete key) c).

(** [MATCH pattern] for a pattern of literal characters and [*], such as
    the [function:*] that the store passes.  The other operators of the
    glob patterns of Redis ([?], [[...]] and the escape) are not
    modelled: a pattern that contains them is outside this definition. *)
Fixpoint globMatch (p s : string) : bool :=
  match p with
  | EmptyString => match s with EmptyString => true | _ => false end
  | String a p' =>
      if Ascii.eqb a "*"%char then
        (fix star (t : string) : bool :=
           globMatch p' t ||
           match t with
           | EmptyString => false
           | String _ t' => star t'
           end) s
      else match s with
           | String b s' => if Ascii.eqb a b then globMatch p' s' else false
           | EmptyString => false
           end
  end.

(** The keys in the order in which the server walks them. *)
Definition keys (c : client) : list string := (map_to_list (db c)).*1.

(** [SCAN cursor MATCH pattern COUNT count] on a keyspace that does not
    change during the iteration.  Redis promises that the calls from
    cursor 0 back to cursor 0 return every key; it may return a key more
    than once and takes [count] as a hint.  The model is the simplest
    server within that promise: the cursor is the position reached in
    [keys], 0 both starts an iteration and reports its end, and a call
    looks at the next [count] keys and returns those that match.  How
    often a key is returned is a fact of this server only. *)
Definition scan (cursor : nat) (pattern : string) (count : nat) (c : client)
  : result (nat * list string) :=
  if negb (reachable c) then Throw ConnectionError
  else if (count =? 0)%nat then Throw ReplyError
  else
    let window := take count (drop cursor (keys c)) in
    let next := if (cursor + count <? length (keys c))%nat then (cursor + count)%nat else 0%nat in
    Ok (next, filter (fun k => globMatch pattern k = true) window).

(** A pipeline: commands queued on the client and sent together. *)
Inductive command : Type :=
| HSet (key : string) (fields : gmap string hval)
| SAdd (key member : string)
| HDel (key field : string)
| Del (key : string).

Definition run_command (cmd : command) : M unit :=
  match cmd with
  | HSet k f => hset k f
  | SAdd k m => sadd k m
  | HDel k f => hdel k f
  | Del k => del k
  end.

(** [pipeline.exec()] resolves with one [[err, result]] pair per command
    and does not reject: the commands are run in order, and a command
    that is answered by an error reply, or that cannot be sent because the
    server is unreachable, leaves its error in the array without stopping
    the others.  The result is the number of errors in the array. *)
Fixpoint run_pipeline (cmds : list command) (failed : nat) (c : client) : nat * client :=
  match cmds with
  | [] => (failed, c)
  | cmd :: rest =>
      match run_command cmd c with
      | (Ok _, c') => run_pipeline rest failed c'
      | (_, c') => run_pipeline rest (S failed) c'
      end
  end.

Definition exec (cmds : list command) : M nat :=
  fun c => let '(failed, c') := run_pipeline cmds 0 c in (Ok failed, c').

End Redis.

Notation "x <- m ;; k" := (Redis.bind m (fun x => k))
  (at level 100, m at next level, k at level 200, right associativity).
Notation "m ;; k" := (Redis.bind m (fun _ => k))
  (at level 100, k at level 200, right associativity).

(** ** Records exchanged between the components *)

(** The [metadata] argument of [setFunction].  An absent [params] is the
    empty list and an absent [type] the empty string (both are falsy). *)
Module Metadata.
Record t : Type := mk {
  file : string;
  line : Z;
  endLine : Z;
  params : list string;
  isAsync : bool;
  isExported : bool;
  type : string
}.
End Metadata.

(** The object returned by [getFunction]; [None] stands for [undefined]
    on a string field and for [NaN] on a number field. *)
Module FunctionInfo.
Record t : Type := mk {
  file : option string;
  line : option Z;
  endLine : option Z;
  params : list string;
  isAsync : bool;
  isExported : bool;
  type : option string;
  lastIndexed : option Z
}.

#[global] Instance eq_dec : EqDecision t.
Proof. solve_decision. Defined.
End FunctionInfo.

(** A function record as a parser produces it. *)
Module Fn.
Record t : Type := mk {
  name : string;
  line : Z;
  endLine : Z;
  params : list string;
  calls : list string;
  isAsync : bool;
  isExported : bool;
  type : string
}.
End Fn.

(** ** RedisStore *)

Module RedisStore.
Import JS Redis.

Definition functionKey (functionName : string) : string :=
  "function:" +:+ functionName.

Definition callsKey (functionName : string) : string :=
  "function:" +:+ functionName +:+ ":calls".

Definition calledByKey (functionName : string) : string :=
  "function:" +:+ functionName +:+ ":called_by".

Definition fileMetaKey (filePath : string) : string :=
  "file:" +:+ filePath +:+ ":meta".

Record Stats : Type := mkStats {
  filesIndexed : nat;
  functionsIndexed : nat;
  timestamp : Z
}.

Section WithDigest.

(** [crypto.createHash('md5').update(content).digest('hex')] *)
Variable md5 : string -> string.

Definition getContentHash (content : string) : string := md5 content.

Definition getFileHash (filePath : string) (c : client) : option string :=
  match hget "file:metadata" filePath c with
  | Ok (Some (HStr hash)) => Some hash
  | Ok _ => None
  | _ => None                      (* catch: return null *)
  end.

Definition setFileHash (now : Z) (filePath hash : string) : M unit :=
  try_catch
    (hset "file:metadata" {[ filePath := HStr hash ]} ;;
     hset (fileMetaKey filePath) {[ "lastIndexed" := HNum now ]})
    (fun e => throw e).

Definition shouldReindex (filePath content : string) (c : client) : bool :=
  let currentHash := getContentHash content in
  match getFileHash filePath c with
  | None => true
  | Some storedHash =>
      if bool_decide (storedHash = "") then true     (* !storedHash *)
      else negb (bool_decide (currentHash = storedHash))
  end.

End WithDigest.

Definition functionFields (now : Z) (metadata : Metadata.t) : gmap string hval :=
  list_to_map
    [ ("file", HStr (Metadata.file metadata));
      ("line", HNum (Metadata.line metadata));
      ("endLine", HNum (if (Metadata.endLine metadata =? 0)%Z
                        then Metadata.line metadata
                        else Metadata.endLine metadata));
      ("params", HJson (Metadata.params metadata));
      ("isAsync", HStr (if Metadata.isAsync metadata then "1" else "0"));
      ("isExported", HStr (if Metadata.isExported metadata then "1" else "0"));
      ("type", HStr (if bool_decide (Metadata.type metadata = "")
                     then "function" else Metadata.type metadata));
      ("lastIndexed", HNum now) ].

Definition setFunction (now : Z) (functionName : string) (metadata : Metadata.t) : M unit :=
  try_catch
    (hset (functionKey functionName) (functionFields now metadata))
    (fun e => throw e).

Definition asString (v : option hval) : option string :=
  match v with Some (HStr s) => Some s | _ => None end.

Definition asInt (v : option hval) : option Z :=
  match v with Some (HNum z) => Some z | _ => None end.

(** [JSON.parse(data.params || '[]')]; a text that is not the JSON of a
    string array is never written under this field and counts as a failure. *)
Definition asParams (v : option hval) : option (list string) :=
  match v with
  | None => Some []
  | Some (HJson l) => Some l
  | Some (HStr s) => if bool_decide (s = "") then Some [] else None
  | Some (HNum _) => None
  end.

Definition getFunction (functionName : string) (c : client) : option FunctionInfo.t :=
  match hgetall (functionKey functionName) c with
  | Ok data =>
      if bool_decide (size data = 0%nat) then None
      else match asParams (data !! "params") with
           | Some ps =>
               Some {| FunctionInfo.file := asString (data !! "file");
                       FunctionInfo.line := asInt (data !! "line");
                       FunctionInfo.endLine := asInt (data !! "endLine");
                       FunctionInfo.params := ps;
                       FunctionInfo.isAsync := bool_decide (data !! "isAsync" = Some (HStr "1"));
                       FunctionInfo.isExported := bool_decide (data !! "isExported" = Some (HStr "1"));
                       FunctionInfo.type := asString (data !! "type");
                       FunctionInfo.lastIndexed := asInt (data !! "lastIndexed") |}
           | None => None              (* catch: return null *)
           end
  | _ => None                          (* catch: return null *)
  end.

Definition addFunctionCall (callerFunction calledFunction : string) : M unit :=
  try_catch
    (sadd (callsKey callerFunction) calledFunction ;;
     sadd (calledByKey calledFunction) callerFunction)
    (fun e => throw e).

Definition getFunctionCalls (functionName : string) (c : client) : list string :=
  match smembers (callsKey functionName) c with
  | Ok calls => calls
  | _ => []                            (* catch: return [] *)
  end.

Definition getFunctionCallers (functionName : string) (c : client) : list string :=
  match smembers (calledByKey functionName) c with
  | Ok callers => callers
  | _ => []                            (* catch: return [] *)
  end.

(** The body of the [for (const key of keys)] loop of [deleteFileData]. *)
Definition collectKey (filePath : string) (c : client) (functions : list string) (key : string)
  : list string :=
  if includes ":" key then functions                  (* continue *)
  else
    match getFunction (replace "function:" "" key) c with
    | Some metadata =>
        if bool_decide (FunctionInfo.file metadata = Some filePath)
        then functions ++ [replace "function:" "" key]
        else functions
    | None => functions
    end.

(** The [do ... while (scanCursor !== '0')] loop of [deleteFileData]. *)
Fixpoint collectFunctions (fuel : nat) (filePath : string) (scanCursor : nat)
  (functions : list string) (c : client) : result (list string) :=
  match fuel with
  | O => Diverge
  | S fuel' =>
      match scan scanCursor "function:*" 100 c with
      | Ok (nextCursor, keys) =>
          let functions' := fold_left (collectKey filePath c) keys functions in
          if (nextCursor =? 0)%nat then Ok functions'
          else collectFunctions fuel' filePath nextCursor functions' c
      | Throw e => Throw e
      | Diverge => Diverge
      end
  end.

(** Enough fuel for a whole iteration of the keyspace. *)
Definition scanFuel (c : client) : nat := S (length (keys c)).

Definition deleteFileData (filePath : string) : M unit :=
  try_catch
    (functions <- (fun c => (collectFunctions (scanFuel c) filePath 0 [] c, c)) ;;
     for_each functions (fun functionName =>
       del (functionKey functionName) ;;
       del (callsKey functionName) ;;
       del (calledByKey functionName)) ;;
     hdel "file:metadata" filePath ;;
     del (fileMetaKey filePath))
    (fun e => throw e).

(** The filter of [getAllFunctions] and [getStats]. *)
Definition isFunctionKey (key : string) : bool :=
  negb (includes ":calls" key) && negb (includes ":called_by" key).

Definition getAllFunctions (cursor count : nat) (c : client) : nat * list string :=
  match scan cursor "function:*" count c with
  | Ok (nextCursor, keys) =>
      let functionKeys := filter (fun key => isFunctionKey key = true) keys in
      (nextCursor, map (replace "function:" "") functionKeys)
  | _ => (0%nat, [])                   (* catch: { cursor: '0', functions: [] } *)
  end.

(** The [do ... while] loop of [getStats]. *)
Fixpoint countFunctions (fuel : nat) (scanCursor functionCount : nat) (c : client)
  : result nat :=
  match fuel with
  | O => Diverge
  | S fuel' =>
      match scan scanCursor "function:*" 100 c with
      | Ok (nextCursor, keys) =>
          let functionCount' :=
            (functionCount + length (filter (fun k => isFunctionKey k = true) keys))%nat in
          if (nextCursor =? 0)%nat then Ok functionCount'
          else countFunctions fuel' nextCursor functionCount' c
      | Throw e => Throw e
      | Diverge => Diverge
      end
  end.

Definition getStats (now : Z) (c : client) : result Stats :=
  match hlen "file:metadata" c with
  | Ok fileCount =>
      match countFunctions (scanFuel c) 0 0 c with
      | Ok functionCount =>
          Ok {| filesIndexed := fileCount; functionsIndexed := functionCount; timestamp := now |}
      | Throw _ => Ok {| filesIndexed := 0; functionsIndexed := 0; timestamp := now |}
      | Diverge => Diverge
      end
  | _ => Ok {| filesIndexed := 0; functionsIndexed := 0; timestamp := now |}
  end.

End RedisStore.

(** ** FunctionIndexer *)

Module FunctionIndexer.
Import JS Redis.

Record IndexResult : Type := mkIndexResult {
  indexed : nat;
  errors : nat
}.

Definition indexFunction (now : Z) (filePath : string) (fn : Fn.t) : M unit :=
  RedisStore.setFunction now (Fn.name fn)
    {| Metadata.file := filePath;
       Metadata.line := Fn.line fn;
       Metadata.endLine := Fn.endLine fn;
       Metadata.params := Fn.params fn;
       Metadata.isAsync := Fn.isAsync fn;
       Metadata.isExported := Fn.isExported fn;
       Metadata.type := if bool_decide (Fn.type fn = "") then "function" else Fn.type fn |} ;;
  match Fn.calls fn with
  | [] => ret tt
  | calls => for_each calls (fun calledFunction =>
               RedisStore.addFunctionCall (Fn.name fn) calledFunction)
  end.

(** The [for (const fn of functions)] loop of [index] with its counters. *)
Fixpoint indexLoop (now : Z) (filePath : string) (functions : list Fn.t)
  (indexed errors : nat) : M IndexResult :=
  match functions with
  | [] => ret {| indexed := indexed; errors := errors |}
  | fn :: rest =>
      done <- try_catch (indexFunction now filePath fn ;; ret true)
                        (fun _ => ret false) ;;
      if done : bool then indexLoop now filePath rest (S indexed) errors
      else indexLoop now filePath rest indexed (S errors)
  end.

Definition index (now : Z) (filePath : string) (functions : list Fn.t) : M IndexResult :=
  match functions with
  | [] => ret {| indexed := 0; errors := 0 |}
  | _ => indexLoop now filePath functions 0 0
  end.

(** A node of the dependency tree. *)
#[warnings="-register-all"]
Inductive node : Type :=
| Node (function : string) (dependencies : list node) (depth : Z).

Definition function (n : node) : string := let 'Node f _ _ := n in f.
Definition dependencies (n : node) : list node := let 'Node _ ds _ := n in ds.
Definition depth (n : node) : Z := let 'Node _ _ d := n in d.

(** The [for (const calledFunction of calls)] loop of
    [_traceDependenciesRecursive], given the recursive call: one child
    node per callee, pushed before the callee is visited. *)
Definition traceCalls
  (recurse : string -> gset string -> result (list node * gset string)) (depth : Z)
  : list string -> gset string -> result (list node * gset string) :=
  fix loop (calls : list string) (visited : gset string) :=
    match calls with
    | [] => Ok ([], visited)
    | calledFunction :: rest =>
        match recurse calledFunction visited with
        | Ok (children, visited') =>
            match loop rest visited' with
            | Ok (siblings, visited'') =>
                Ok (Node calledFunction children (depth + 1)%Z :: siblings, visited'')
            | Throw e => Throw e
            | Diverge => Diverge
            end
        | Throw e => Throw e
        | Diverge => Diverge
        end
    end.

(** [_traceDependenciesRecursive(functionName, node, visited, depth, maxDepth)].
    The source pushes the children on [node.dependencies] and adds to the
    shared [visited]; the model returns the children pushed and the set as
    it is on return. *)
Fixpoint _traceDependenciesRecursive (fuel : nat) (c : client) (functionName : string)
  (visited : gset string) (depth maxDepth : Z) : result (list node * gset string) :=
  match fuel with
  | O => Diverge
  | S fuel' =>
      if (maxDepth <=? depth)%Z || bool_decide (functionName ∈ visited)
      then Ok ([], visited)
      else
        traceCalls
          (fun calledFunction visited' =>
             _traceDependenciesRecursive fuel' c calledFunction visited'
               (depth + 1)%Z maxDepth)
          depth
          (RedisStore.getFunctionCalls functionName c)
          ({[ functionName ]} ∪ visited)
  end.

(** The recursion goes one level deeper per call and stops at [maxDepth]. *)
Definition depthFuel (maxDepth : Z) : nat := S (Z.to_nat maxDepth).

Definition traceDependencies (functionName : string) (maxDepth : Z) (c : client)
  : result node :=
  match _traceDependenciesRecursive (depthFuel maxDepth) c functionName ∅ 0%Z maxDepth with
  | Ok (children, _) => Ok (Node functionName children 0%Z)
  | Throw e => Throw e
  | Diverge => Diverge
  end.

(** The [for (const caller of callers)] loop of [_findAffectedRecursive],
    given the recursive call: the caller is added to [affected] before the
    call is made on it. *)
Definition affectedCallers (recurse : string -> list string -> result (list string))
  : list string -> list string -> result (list string) :=
  fix loop (callers : list string) (affected : list string) :=
    match callers with
    | [] => Ok affected
    | caller :: rest =>
        match recurse caller (Set_add caller affected) with
        | Ok affected' => loop rest affected'
        | Throw e => Throw e
        | Diverge => Diverge
        end
    end.

(** [_findAffectedRecursive(functionName, affected, depth, maxDepth)];
    the result is the shared [affected] set as it is on return. *)
Fixpoint _findAffectedRecursive (fuel : nat) (c : client) (functionName : string)
  (affected : list string) (depth maxDepth : Z) : result (list string) :=
  match fuel with
  | O => Diverge
  | S fuel' =>
      if (maxDepth <=? depth)%Z || Set_has functionName affected
      then Ok affected
      else
        affectedCallers
          (fun caller affected' =>
             _findAffectedRecursive fuel' c caller affected' (depth + 1)%Z maxDepth)
          (RedisStore.getFunctionCallers functionName c)
          affected
  end.

Definition findAffectedFunctions (functionName : string) (maxDepth : Z) (c : client)
  : result (list string) :=
  _findAffectedRecursive (depthFuel maxDepth) c functionName [] 0%Z maxDepth.

End FunctionIndexer.

(** ** BatchIndexer *)

Module BatchIndexer.
Import JS Redis.

(** An element of the array given to [batchIndexFunctions]. *)
Record BatchFn : Type := mkBatchFn {
  name : string;
  metadata : Metadata.t;
  calls : list string
}.

(** The commands queued for one function. *)
Definition functionCommands (now : Z) (fn : BatchFn) : list command :=
  HSet (RedisStore.functionKey (name fn)) (RedisStore.functionFields now (metadata fn))
  :: flat_map (fun calledFunction =>
                 [ SAdd (RedisStore.callsKey (name fn)) calledFunction;
                   SAdd (RedisStore.calledByKey calledFunction) (name fn) ])
              (calls fn).

Definition batchIndexFunctions (now : Z) (functions : list BatchFn)
  : M FunctionIndexer.IndexResult :=
  match functions with
  | [] => ret {| FunctionIndexer.indexed := 0; FunctionIndexer.errors := 0 |}
  | _ =>
      let pipeline := flat_map (functionCommands now) functions in
      try_catch
        (exec pipeline ;;
         ret {| FunctionIndexer.indexed := length functions; FunctionIndexer.errors := 0 |})
        (fun _ =>
         ret {| FunctionIndexer.indexed := 0; FunctionIndexer.errors := length functions |})
  end.

Definition batchDeleteFiles (filePaths : list string) : M unit :=
  match filePaths with
  | [] => ret tt
  | _ =>
      let pipeline :=
        flat_map (fun filePath =>
                    [ HDel "file:metadata" filePath;
                      Del (RedisStore.fileMetaKey filePath) ])
                 filePaths in
      exec pipeline ;; ret tt
  end.

End BatchIndexer.

(** ** Parsers *)

Module Parsers.
Import JS Redis.

(** What [parse] may hand back: anything, as far as [validateResult]
    is concerned. *)
Inductive ParseResult : Type :=
| NotAnObject
| FunctionsNotAnArray
| Parsed (functions : list Fn.t).

(** A call of [parse] returns a value or throws. *)
Inductive ParseOutcome : Type :=
| Returns (r : ParseResult)
| Throws (e : error).

Record Parser : Type := mkParser {
  canParse : string -> bool;
  parse : string -> string -> ParseOutcome
}.

(** [BaseParser.validateResult] *)
Definition validateResult (r : ParseResult) : bool :=
  match r with
  | NotAnObject => false
  | FunctionsNotAnArray => false
  | Parsed _ => true
  end.

Definition supportedExtensions : list string :=
  [".js"; ".jsx"; ".ts"; ".tsx"; ".mjs"; ".cjs"].

Section WithBabel.

(** Babel's [parse] followed by the traversal that extracts the function
    records; [None] when either throws. *)
Variable babel : string -> string -> option (list Fn.t).

Definition JavaScriptParser : Parser :=
  {| canParse := fun filePath => existsb (fun ext => endsWith ext filePath) supportedExtensions;
     parse := fun filePath content =>
       match babel filePath content with
       | Some functions => Returns (Parsed functions)
       | None => Returns (Parsed []) (* catch: return empty result on parse failure *)
       end |}.

End WithBabel.

(** [ParserRegistry.getParser] *)
Definition getParser (parsers : list Parser) (filePath : string) : option Parser :=
  find (fun p => canParse p filePath) parsers.

End Parsers.

(** ** CodebaseIndexer *)

Module CodebaseIndexer.
Import JS Redis.

Record Options : Type := mkOptions {
  force : bool;
  skipDelete : bool
}.

Record FileResult : Type := mkFileResult {
  skipped : bool;
  functionsIndexed : nat;
  errors : nat
}.

Record RunResult : Type := mkRunResult {
  filesProcessed : nat;
  filesSkipped : nat;
  totalFunctionsIndexed : nat;
  totalErrors : nat;
  stats : option RedisStore.Stats
}.

Section WithEnvironment.

Variable md5 : string -> string.
(** The registered parsers. *)
Variable parsers : list Parsers.Parser.
(** [fs.readFile(filePath, 'utf8')]; [None] when it fails. *)
Variable fs : string -> option string.

(** [FileWalker.readFile] *)
Definition readFile (filePath : string) : M string :=
  match fs filePath with
  | Some content => ret content
  | None => throw IOError
  end.

Definition indexFile (now : Z) (filePath : string) (options : Options) : M FileResult :=
  match Parsers.getParser parsers filePath with
  | None => ret {| skipped := true; functionsIndexed := 0; errors := 0 |}
  | Some parser =>
      content <- readFile filePath ;;
      changed <- read (RedisStore.shouldReindex md5 filePath content) ;;
      if negb (force options) && negb changed
      then ret {| skipped := true; functionsIndexed := 0; errors := 0 |}
      else
        (if negb (skipDelete options) then RedisStore.deleteFileData filePath else ret tt) ;;
        parseResult <- match Parsers.parse parser filePath content with
                       | Parsers.Returns r => ret r
                       | Parsers.Throws e => throw e
                       end ;;
        match parseResult with
        | Parsers.Parsed functions =>
            r <- FunctionIndexer.index now filePath functions ;;
            RedisStore.setFileHash now filePath (RedisStore.getContentHash md5 content) ;;
            ret {| skipped := false;
                   functionsIndexed := FunctionIndexer.indexed r;
                   errors := FunctionIndexer.errors r |}
        | _ => ret {| skipped := false; functionsIndexed := 0; errors := 1 |}
        end
  end.

(** The [for (const file of files)] loop of [indexCodebase] with its
    four counters. *)
Fixpoint indexFiles (now : Z) (files : list string) (options : Options)
  (acc : RunResult) : M RunResult :=
  match files with
  | [] => ret acc
  | file :: rest =>
      outcome <- try_catch (r <- indexFile now file options ;; ret (Some r))
                           (fun _ => ret None) ;;
      indexFiles now rest options
        match outcome with
        | Some r =>
            if skipped r
            then {| filesProcessed := filesProcessed acc;
                    filesSkipped := S (filesSkipped acc);
                    totalFunctionsIndexed := totalFunctionsIndexed acc;
                    totalErrors := totalErrors acc;
                    stats := stats acc |}
            else {| filesProcessed := S (filesProcessed acc);
                    filesSkipped := filesSkipped acc;
                    totalFunctionsIndexed := totalFunctionsIndexed acc + functionsIndexed r;
                    totalErrors := totalErrors acc + errors r;
                    stats := stats acc |}
        | None =>
            {| filesProcessed := filesProcessed acc;
               filesSkipped := filesSkipped acc;
               totalFunctionsIndexed := totalFunctionsIndexed acc;
               totalErrors := S (totalErrors acc);
               stats := stats acc |}
        end
  end.

Definition noFiles : RunResult :=
  {| filesProcessed := 0; filesSkipped := 0; totalFunctionsIndexed := 0;
     totalErrors := 0; stats := None |}.

(** [indexCodebase], from the list of files that the walker returned. *)
Definition indexCodebase (now : Z) (files : list string) (options : Options) : M RunResult :=
  try_catch
    (match files with
     | [] => ret noFiles
     | _ =>
         counted <- indexFiles now files options noFiles ;;
         stats <- lift (RedisStore.getStats now) ;;
         ret {| filesProcessed := filesProcessed counted;
                filesSkipped := filesSkipped counted;
                totalFunctionsIndexed := totalFunctionsIndexed counted;
                totalErrors := totalErrors counted;
                stats := Some stats |}
     end)
    (fun e => throw e).

(** The [do ... while (cursor !== '0')] loop of
    [CodebaseIndexer.getAllFunctions]. *)
Fixpoint allFunctionsFrom (fuel : nat) (cursor : nat) (allFunctions : list string)
  (c : client) : result (list string) :=
  match fuel with
  | O => Diverge
  | S fuel' =>
      let '(next, functions) := RedisStore.getAllFunctions cursor 100 c in
      if (next =? 0)%nat then Ok (allFunctions ++ functions)
      else allFunctionsFrom fuel' next (allFunctions ++ functions) c
  end.

Definition getAllFunctions (c : client) : result (list string) :=
  allFunctionsFrom (RedisStore.scanFuel c) 0 [] c.

End WithEnvironment.

End CodebaseIndexer.

(** ** Pagination utilities *)

Module Pagination.
Import JS Redis.

Record PaginationInfo : Type := mkPaginationInfo {
  currentPage : Z;
  pageSize : Z;
  totalItems : Z;
  totalPages : Z;
  hasNextPage : bool;
  hasPrevPage : bool;
  startIndex : Z;                 (* 1-indexed for display *)
  endIndex : Z
}.

(** [Math.ceil(a / b)] for integers [a] and [b <> 0]. *)
Definition ceilDiv (a b : Z) : Z := (- ((- a) / b))%Z.

(** [items.slice(start, end)] for [0 <= start] and [0 <= end]. *)
Definition sliceList {A} (items : list A) (start end_ : Z) : list A :=
  take (Z.to_nat (end_ - start)) (drop (Z.to_nat start) items).

(** [paginate(items, page, pageSize)] for an integer [page] and an
    integer [pageSize] other than 0. *)
Definition paginate {A} (items : list A) (page pageSize : Z) : list A * PaginationInfo :=
  let totalItems := Z.of_nat (length items) in
  let totalPages := ceilDiv totalItems pageSize in
  let currentPage := Z.max 1 (Z.min page totalPages) in
  let startIndex := ((currentPage - 1) * pageSize)%Z in
  let endIndex := Z.min (startIndex + pageSize) totalItems in
  let pageItems := sliceList items startIndex endIndex in
  (pageItems,
   {| currentPage := currentPage;
      pageSize := pageSize;
      totalItems := totalItems;
      totalPages := totalPages;
      hasNextPage := (currentPage <? totalPages)%Z;
      hasPrevPage := (1 <? currentPage)%Z;
      startIndex := (startIndex + 1)%Z;
      endIndex := endIndex |}).

(** [redisScan(redisClient, pattern, count)].  The client is an argument
    of the generator and so it is one here: [redisClient cursor pattern
    count] is the reply to [redisClient.scan(cursor, 'MATCH', pattern,
    'COUNT', count)], the next cursor and the keys.  The result is the
    list of the batches yielded to a consumer that drains the generator;
    the fuel bounds the number of calls to the client. *)
Section RedisScan.
Variable redisClient : nat -> string -> nat -> result (nat * list string).

Fixpoint redisScanFrom (fuel : nat) (cursor : nat) (pattern : string) (count : nat)
  : result (list (list string)) :=
  match fuel with
  | O => Diverge
  | S fuel' =>
      match redisClient cursor pattern count with
      | Ok (nextCursor, keys) =>
          let yielded := match keys with [] => [] | _ => [keys] end in
          if (nextCursor =? 0)%nat then Ok yielded
          else match redisScanFrom fuel' nextCursor pattern count with
               | Ok rest => Ok (yielded ++ rest)
               | Throw e => Throw e
               | Diverge => Diverge
               end
      | Throw e => Throw e
      | Diverge => Diverge
      end
  end.

Definition redisScan (fuel : nat) (pattern : string) (count : nat)
  : result (list (list string)) :=
  redisScanFrom fuel 0 pattern count.

End RedisScan.

(** The object of [createPaginationHelper(allItems, initialPageSize)]:
    its state is the variable [currentPage], initially 1. *)
Section Helper.
Context {A : Type}.
Variable allItems : list A.
Variable initialPageSize : Z.

Definition getPage (page : Z) : list A * PaginationInfo :=
  paginate allItems page initialPageSize.

(** [next()]: the new state and the page returned. *)
Definition next (current : Z) : Z * (list A * PaginationInfo) :=
  let current' := (current + 1)%Z in (current', getPage current').

(** [prev()] *)
Definition prev (current : Z) : Z * (list A * PaginationInfo) :=
  let current' := Z.max 1 (current - 1) in (current', getPage current').

(** [hasMore()] *)
Definition hasMore (current : Z) : bool :=
  (current <? ceilDiv (Z.of_nat (length allItems)) initialPageSize)%Z.

(** [reset()] *)
Definition reset (current : Z) : Z := 1%Z.

End Helper.

End Pagination.

(** ** Vocabulary of the properties *)

Module Spec.
Import JS Redis.

(** The empty store of a reachable server. *)
Definition empty : client := {| db := ∅; reachable := true |}.

(** The state in which a computation leaves the store. *)
Definition after {A} (m : M A) (c : client) : client := snd (m c).

(** The operations of the store that a caller may issue, and the server
    coming and going between two of them. *)
Inductive op : Type :=
| SetFunction (now : Z) (functionName : string) (metadata : Metadata.t)
| AddFunctionCall (callerFunction calledFunction : string)
| DeleteFileData (filePath : string)
| SetFileHash (now : Z) (filePath hash : string)
| BatchIndexFunctions (now : Z) (functions : list BatchIndexer.BatchFn)
| BatchDeleteFiles (filePaths : list string)
| Connection (up : bool).

Definition perform (o : op) (c : client) : client :=
  match o with
  | SetFunction now functionName metadata =>
      after (RedisStore.setFunction now functionName metadata) c
  | AddFunctionCall callerFunction calledFunction =>
      after (RedisStore.addFunctionCall callerFunction calledFunction) c
  | DeleteFileData filePath => after (RedisStore.deleteFileData filePath) c
  | SetFileHash now filePath hash => after (RedisStore.setFileHash now filePath hash) c
  | BatchIndexFunctions now functions =>
      after (BatchIndexer.batchIndexFunctions now functions) c
  | BatchDeleteFiles filePaths => after (BatchIndexer.batchDeleteFiles filePaths) c
  | Connection up => {| db := db c; reachable := up |}
  end.

Definition performAll (ops : list op) (c : client) : client :=
  fold_left (fun c o => perform o c) ops c.

(** A function name without [:], as every name that the parser extracts
    (an identifier, or [Class.method]). *)
Definition plainName (functionName : string) : bool := negb (includes ":" functionName).

Definition plainOp (o : op) : bool :=
  match o with
  | SetFunction _ functionName _ => plainName functionName
  | AddFunctionCall callerFunction calledFunction =>
      plainName callerFunction && plainName calledFunction
  | BatchIndexFunctions _ functions =>
      forallb (fun fn => plainName (BatchIndexer.name fn) &&
                         forallb plainName (BatchIndexer.calls fn)) functions
  | _ => true
  end.

(** [callee ∈ calls(caller)] iff [caller ∈ called_by(callee)] *)
Definition edgeSymmetric (c : client) : Prop :=
  ∀ x y, y ∈ RedisStore.getFunctionCalls x c ↔ x ∈ RedisStore.getFunctionCallers y c.

(** The members of the set stored under a key, if it holds a set. *)
Definition setAt (d : gmap string rval) (key : string) : gset string :=
  match d !! key with
  | Some (RSet m) => m
  | _ => ∅
  end.

Definition isHash (v : option rval) : bool :=
  match v with
  | Some (RHash _) => true
  | _ => false
  end.

(** A store that holds one function [foo] of the file [a.js] and the
    fingerprint of that file. *)
Definition fooMetadata : Metadata.t :=
  {| Metadata.file := "a.js"; Metadata.line := 1; Metadata.endLine := 3;
     Metadata.params := ["x"]; Metadata.isAsync := false;
     Metadata.isExported := true; Metadata.type := "function" |}.

Definition fooIndexed : client :=
  performAll [SetFunction 5 "foo" fooMetadata; SetFileHash 5 "a.js" "9e107d9d"] empty.

(** The key of a function holds a record that [getFunction] can read. *)
Definition recordAt (d : gmap string rval) (functionName : string) : Prop :=
  ∃ h, d !! RedisStore.functionKey functionName = Some (RHash h) ∧
       h ≠ ∅ ∧ is_Some (RedisStore.asParams (h !! "params")).

(** A command that is no deletion of the key of [n], and no write of
    other fields than those of [setFunction] to it. *)
Definition sparesRecord (n : string) (cmd : command) : Prop :=
  match cmd with
  | HSet key fields =>
      key ≠ RedisStore.functionKey n ∨ ∃ now metadata, fields = RedisStore.functionFields now metadata
  | SAdd _ _ => True
  | HDel key _ => key ≠ RedisStore.functionKey n
  | Del key => key ≠ RedisStore.functionKey n
  end.

(** A computation that returns or throws on every store. *)
Definition terminates {A} (m : M A) : Prop := ∀ c, fst (m c) ≠ Diverge.

(** The names that the enumeration derives from a list of keys. *)
Definition listedNames (ks : list string) : list string :=
  map (replace "function:" "")
    (filter (fun k => RedisStore.isFunctionKey k = true)
       (filter (fun k => globMatch "function:*" k = true) ks)).

(** The path has no entry in the fingerprint table. *)
Definition noFingerprint (d : gmap string rval) (filePath : string) : Prop :=
  match d !! "file:metadata" with
  | Some (RHash h) => h !! filePath = None
  | _ => True
  end.

(** The surroundings of the indexing scenarios: a digest, a file system
    with the two files [a.js] and [b.js], a Babel that throws on [a.js]
    and finds one function in [b.js], and a parser that returns [null]. *)
Definition exampleDigest (content : string) : string := "md5:" +:+ content.

Definition exampleFs (filePath : string) : option string :=
  if bool_decide (filePath = "a.js") then Some "function ("
  else if bool_decide (filePath = "b.js") then Some "function g() { h(); }"
  else None.

Definition exampleBabel (filePath content : string) : option (list Fn.t) :=
  if bool_decide (filePath = "b.js")
  then Some [ {| Fn.name := "g"; Fn.line := 1; Fn.endLine := 1; Fn.params := [];
                 Fn.calls := ["h"]; Fn.isAsync := false; Fn.isExported := false;
                 Fn.type := "function" |} ]
  else None.

Definition nullParser : Parsers.Parser :=
  {| Parsers.canParse := fun filePath => endsWith ".js" filePath;
     Parsers.parse := fun _ _ => Parsers.Returns Parsers.NotAnObject |}.

Definition defaultOptions : CodebaseIndexer.Options :=
  {| CodebaseIndexer.force := false; CodebaseIndexer.skipDelete := false |}.

(** Whether some registered parser takes the file. *)
Definition parsable (parsers : list Parsers.Parser) (filePath : string) : bool :=
  match Parsers.getParser parsers filePath with
  | Some _ => true
  | None => false
  end.

(** The statistics that [getStats] falls back to. *)
Definition noStats (now : Z) : RedisStore.Stats :=
  {| RedisStore.filesIndexed := 0; RedisStore.functionsIndexed := 0;
     RedisStore.timestamp := now |}.

(** One more error on the run's counters; [processed] tells whether the
    file also counts as processed. *)
Definition oneMoreError (processed : bool) (acc : CodebaseIndexer.RunResult)
  : CodebaseIndexer.RunResult :=
  {| CodebaseIndexer.filesProcessed :=
       if processed then S (CodebaseIndexer.filesProcessed acc)
       else CodebaseIndexer.filesProcessed acc;
     CodebaseIndexer.filesSkipped := CodebaseIndexer.filesSkipped acc;
     CodebaseIndexer.totalFunctionsIndexed := CodebaseIndexer.totalFunctionsIndexed acc;
     CodebaseIndexer.totalErrors := S (CodebaseIndexer.totalErrors acc);
     CodebaseIndexer.stats := CodebaseIndexer.stats acc |}.

(** The number of keys that [getStats] counts in a list of keys. *)
Definition countedKeys (ks : list string) : nat :=
  length (filter (fun k => RedisStore.isFunctionKey k = true)
            (filter (fun k => globMatch "function:*" k = true) ks)).

(** The replies of a client to the cursors from [cursor] on, up to the
    first reply that returns cursor 0. *)
Fixpoint iteration (redisClient : nat → string → nat → result (nat * list string))
  (pattern : string) (count : nat) (cursor : nat) (replies : list (nat * list string))
  : Prop :=
  match replies with
  | [] => False
  | reply :: rest =>
      redisClient cursor pattern count = Ok reply ∧
      match rest with
      | [] => fst reply = 0%nat
      | _ => fst reply ≠ 0%nat ∧ iteration redisClient pattern count (fst reply) rest
      end
  end.

(** A client that answers in three steps, once with no key and with the
    key [a] in two of its replies. *)
Definition exampleClient (cursor : nat) (pattern : string) (count : nat)
  : result (nat * list string) :=
  match cursor with
  | 0%nat => Ok (7%nat, ["a"])
  | 7%nat => Ok (3%nat, [])
  | 3%nat => Ok (0%nat, ["b"; "a"])
  | _ => Throw ReplyError
  end.

(** [Number.isSafeInteger(z)]: the integers that a JavaScript number
    holds exactly.  [String] writes them with all their digits and
    [parseInt] reads them back. *)
Definition safeInteger (z : Z) : Prop := (Z.abs z ≤ 9007199254740991)%Z.

(** What [getFunction] reads back of a record written by [setFunction]. *)
Definition storedInfo (now : Z) (metadata : Metadata.t) : FunctionInfo.t :=
  {| FunctionInfo.file := Some (Metadata.file metadata);
     FunctionInfo.line := Some (Metadata.line metadata);
     FunctionInfo.endLine := Some (if (Metadata.endLine metadata =? 0)%Z
                                   then Metadata.line metadata
                                   else Metadata.endLine metadata);
     FunctionInfo.params := Metadata.params metadata;
     FunctionInfo.isAsync := Metadata.isAsync metadata;
     FunctionInfo.isExported := Metadata.isExported metadata;
     FunctionInfo.type := Some (if bool_decide (Metadata.type metadata = "")
                                then "function" else Metadata.type metadata);
     FunctionInfo.lastIndexed := Some now |}.

(** The call graphs of the scenarios: the cycle [a -> b -> c -> a], a
    callee [d] shared by [b] and [c], and a function that calls itself. *)
Definition cycleStore : client :=
  performAll [AddFunctionCall "a" "b"; AddFunctionCall "b" "c"; AddFunctionCall "c" "a"] empty.


Definition recursiveStore : client := performAll [AddFunctionCall "f" "f"] empty.





(** Every node with children lies above [maxDepth], and a child is one
    level below its parent. *)
Fixpoint depthsOk (maxDepth : Z) (n : FunctionIndexer.node) : bool :=
  match n with
  | FunctionIndexer.Node _ deps d =>
      match deps with [] => true | _ => (d <? maxDepth)%Z end &&
      forallb (fun ch => (FunctionIndexer.depth ch =? d + 1)%Z && depthsOk maxDepth ch) deps
  end.

(** [g] calls [f] through a chain of [n] stored caller edges. *)
Inductive callerWithin (c : client) : nat → string → string → Prop :=
| callerWithin_one f g :
    g ∈ RedisStore.getFunctionCallers f c → callerWithin c 1 f g
| callerWithin_step n f g h :
    callerWithin c n f g → h ∈ RedisStore.getFunctionCallers g c →
    callerWithin c (S n) f h.

(** The invariant of the keyspace behind [edgeSymmetric]: the two edge
    sets agree, and no edge key of a plain name holds a hash. *)
Definition symmetricDb (d : gmap string rval) : Prop :=
  ∀ x y, y ∈ setAt d (RedisStore.callsKey x) ↔ x ∈ setAt d (RedisStore.calledByKey y).

Definition noHashAtEdges (d : gmap string rval) : Prop :=
  ∀ x, plainName x = true →
       isHash (d !! RedisStore.callsKey x) = false ∧
       isHash (d !! RedisStore.calledByKey x) = false.

Definition edgeInv (d : gmap string rval) : Prop := symmetricDb d ∧ noHashAtEdges d.

(** Pipelines that write hashes under plain function names and edges on
    both sides. *)
Inductive edgeSafe : list command → Prop :=
| edgeSafe_nil : edgeSafe []
| edgeSafe_hset n fields rest :
    plainName n = true → edgeSafe rest →
    edgeSafe (HSet (RedisStore.functionKey n) fields :: rest)
| edgeSafe_edge a b rest :
    plainName a = true → plainName b = true → edgeSafe rest →
    edgeSafe (SAdd (RedisStore.callsKey a) b :: SAdd (RedisStore.calledByKey b) a :: rest).

(** The key a command is sent to. *)
Definition commandKey (cmd : command) : string :=
  match cmd with
  | HSet key _ => key
  | SAdd key _ => key
  | HDel key _ => key
  | Del key => key
  end.

(** The last character of a string. *)
Fixpoint lastChar (s : string) : option ascii :=
  match s with
  | EmptyString => None
  | String a s' => match s' with EmptyString => Some a | _ => lastChar s' end
  end.

(** The element of the array of [batchIndexFunctions] for a function a
    parser found in [filePath], with the metadata [indexFunction] builds. *)
Definition asBatch (filePath : string) (fn : Fn.t) : BatchIndexer.BatchFn :=
  {| BatchIndexer.name := Fn.name fn;
     BatchIndexer.metadata :=
       {| Metadata.file := filePath;
          Metadata.line := Fn.line fn;
          Metadata.endLine := Fn.endLine fn;
          Metadata.params := Fn.params fn;
          Metadata.isAsync := Fn.isAsync fn;
          Metadata.isExported := Fn.isExported fn;
          Metadata.type := if bool_decide (Fn.type fn = "") then "function" else Fn.type fn |};
     BatchIndexer.calls := Fn.calls fn |}.

End Spec.

(** * Properties *)

(** ** Strings and keys *)

Section StringFacts.
Import JS Spec.

Lemma string_app_cons (a : ascii) (p r : string) : String a p +:+ r = String a (p +:+ r).
Proof. reflexivity. Qed.

Lemma string_app_nil (r : string) : "" +:+ r = r.
Proof. reflexivity. Qed.

Lemma startsWith_app (p r : string) : startsWith p (p +:+ r) = true.
Proof.
  induction p as [|a p IH]; [done|].
  rewrite string_app_cons. simpl. by rewrite Ascii.eqb_refl.
Qed.

Lemma startsWith_inv (p s : string) :
  startsWith p s = true → s = p +:+ slice (String.length p) s.
Proof.
  revert s; induction p as [|a p IH]; intros s H; [done|].
  destruct s as [|b s]; [done|]. simpl in H.
  destruct (Ascii.eqb a b) eqn:E; [|done].
  apply Ascii.eqb_eq in E as ->. rewrite string_app_cons. simpl. f_equal. by apply IH.
Qed.

Lemma slice_app (p r : string) : slice (String.length p) (p +:+ r) = r.
Proof. induction p; [done|]. rewrite string_app_cons. simpl. auto. Qed.

Lemma replace_prefix (p rep r : string) : replace p rep (p +:+ r) = rep +:+ r.
Proof.
  assert (H : ∀ s, startsWith p s = true →
                   replace p rep s = rep +:+ slice (String.length p) s).
  { intros s Hs. destruct s; simpl; by rewrite Hs. }
  rewrite H by apply startsWith_app. by rewrite slice_app.
Qed.

Lemma includes_prefix (sub r : string) : includes sub (sub +:+ r) = true.
Proof.
  destruct (sub +:+ r) eqn:E; simpl;
    rewrite <- E, startsWith_app; done.
Qed.

Lemma includes_app_r (sub p s : string) :
  includes sub s = true → includes sub (p +:+ s) = true.
Proof.
  intros H. induction p as [|a p IH]; [done|].
  rewrite string_app_cons. simpl. rewrite IH. apply orb_true_r.
Qed.

Lemma includes_inv (sub s : string) :
  includes sub s = true → ∃ p r, s = p +:+ sub +:+ r.
Proof.
  induction s as [|a s IH]; simpl; intros H.
  - rewrite orb_false_r in H. apply startsWith_inv in H.
    exists "", (slice (String.length sub) ""). done.
  - apply orb_true_iff in H as [H|H].
    + apply startsWith_inv in H. exists "". eexists. rewrite string_app_nil. exact H.
    + destruct (IH H) as (p & r & ->). exists (String a p), r. done.
Qed.

Lemma string_length_app (a b : string) :
  String.length (a +:+ b) = (String.length a + String.length b)%nat.
Proof. induction a; [done|]. rewrite string_app_cons. simpl. auto. Qed.

Lemma string_app_inv_tail (a b s : string) : a +:+ s = b +:+ s → a = b.
Proof.
  revert b; induction a as [|x a IH]; intros [|y b] H; try done.
  - apply (f_equal String.length) in H.
    rewrite string_app_nil, string_app_cons in H. simpl in H. rewrite string_length_app in H. lia.
  - apply (f_equal String.length) in H.
    rewrite string_app_nil, string_app_cons in H. simpl in H. rewrite string_length_app in H. lia.
  - rewrite !string_app_cons in H. injection H as -> H. f_equal. by apply IH.
Qed.

Lemma lastChar_app (a s : string) : s ≠ "" → lastChar (a +:+ s) = lastChar s.
Proof.
  intros Hs. induction a as [|x a IH]; [done|].
  rewrite string_app_cons. simpl.
  destruct (a +:+ s) eqn:E; [|done].
  destruct a; [by rewrite string_app_nil in E|by rewrite string_app_cons in E].
Qed.

Lemma globMatch_star (s : string) : Redis.globMatch "*" s = true.
Proof. induction s as [|a s IH]; simpl in *; [done|]. exact IH. Qed.

Lemma globMatch_prefix (p key : string) :
  includes "*" p = false → Redis.globMatch (p +:+ "*") key = startsWith p key.
Proof.
  revert key; induction p as [|a p IH]; intros key H.
  - rewrite string_app_nil. apply globMatch_star.
  - rewrite string_app_cons. cbn [includes startsWith] in H.
    apply orb_false_iff in H as [Ha Hp].
    assert (E : Ascii.eqb a "*" = false).
    { rewrite Ascii.eqb_sym. by destruct (Ascii.eqb "*" a). }
    cbn [Redis.globMatch]. rewrite E.
    destruct key as [|b key]; [done|].
    cbn [startsWith]. destruct (Ascii.eqb a b); [by apply IH|done].
Qed.

Lemma globMatch_function (key : string) :
  Redis.globMatch "function:*" key = startsWith "function:" key.
Proof. by apply (globMatch_prefix "function:"). Qed.

End StringFacts.

(** ** The key namespace *)

Section KeyFacts.
Import JS Redis RedisStore Spec.

Lemma functionKey_starts (n : string) : startsWith "function:" (functionKey n) = true.
Proof. apply startsWith_app. Qed.

Lemma callsKey_starts (n : string) : startsWith "function:" (callsKey n) = true.
Proof. apply startsWith_app. Qed.

Lemma calledByKey_starts (n : string) : startsWith "function:" (calledByKey n) = true.
Proof. apply startsWith_app. Qed.

(** Every key that matches [function:*] contains a colon. *)
Lemma function_key_includes_colon (key : string) :
  startsWith "function:" key = true → includes ":" key = true.
Proof.
  intros H. apply startsWith_inv in H. rewrite H.
  change ("function:" +:+ slice (String.length "function:") key)
    with ("function" +:+ ":" +:+ slice (String.length "function:") key).
  apply includes_app_r, includes_prefix.
Qed.

Lemma functionKey_inj (a b : string) : functionKey a = functionKey b → a = b.
Proof. apply (inj (String.app "function:")). Qed.

Lemma callsKey_inj (a b : string) : callsKey a = callsKey b → a = b.
Proof. intros H. apply (inj (String.app "function:")) in H. by apply string_app_inv_tail in H. Qed.

Lemma calledByKey_inj (a b : string) : calledByKey a = calledByKey b → a = b.
Proof. intros H. apply (inj (String.app "function:")) in H. by apply string_app_inv_tail in H. Qed.

Lemma callsKey_ne_calledByKey (a b : string) : callsKey a ≠ calledByKey b.
Proof.
  intros H. apply (inj (String.app "function:")) in H.
  apply (f_equal lastChar) in H. by rewrite !lastChar_app in H.
Qed.

Lemma plainName_spec (n : string) : plainName n = true ↔ includes ":" n = false.
Proof. unfold plainName. by destruct (includes ":" n). Qed.

Lemma functionKey_ne_callsKey (n x : string) :
  plainName n = true → functionKey n ≠ callsKey x.
Proof.
  intros Hn H. apply (inj (String.app "function:")) in H. subst n.
  apply plainName_spec in Hn.
  change (x +:+ ":calls") with (x +:+ ":" +:+ "calls") in Hn.
  by rewrite includes_app_r in Hn by apply includes_prefix.
Qed.

Lemma functionKey_ne_calledByKey (n x : string) :
  plainName n = true → functionKey n ≠ calledByKey x.
Proof.
  intros Hn H. apply (inj (String.app "function:")) in H. subst n.
  apply plainName_spec in Hn.
  change (x +:+ ":called_by") with (x +:+ ":" +:+ "called_by") in Hn.
  by rewrite includes_app_r in Hn by apply includes_prefix.
Qed.

Lemma fileMetadata_not_function : startsWith "function:" "file:metadata" = false.
Proof. reflexivity. Qed.

Lemma fileMetaKey_not_function (p : string) : startsWith "function:" (fileMetaKey p) = false.
Proof. reflexivity. Qed.

End KeyFacts.

(** ** The commands *)

Section CommandFacts.
Import JS Redis Spec.

Lemma try_rethrow {A} (m : M A) (c : client) : try_catch m (fun e => throw e) c = m c.
Proof. unfold try_catch, throw. by destruct (m c) as [[]]. Qed.

Lemma sadd_ok (key member : string) (c : client) :
  reachable c = true → isHash (db c !! key) = false →
  sadd key member c =
    (Ok tt, on_db (insert key (RSet ({[member]} ∪ setAt (db c) key))) c).
Proof.
  intros Hr Hh. unfold sadd, setAt. rewrite Hr. simpl.
  destruct (db c !! key) as [[h|m]|]; [done|done|].
  by rewrite (right_id_L ∅ (∪)).
Qed.

Lemma sadd_unreachable (key member : string) (c : client) :
  reachable c = false → sadd key member c = (Throw ConnectionError, c).
Proof. intros Hr. unfold sadd. by rewrite Hr. Qed.

(** A command changes nothing but the key it is sent to, and never the
    connection. *)
Lemma run_command_frame (cmd : command) (c : client) (k : string) :
  k ≠ commandKey cmd → db (snd (run_command cmd c)) !! k = db c !! k.
Proof.
  intros Hk. destruct cmd as [key f|key m|key f|key]; simpl in *.
  - unfold hset. destruct (reachable c); [|done]. simpl.
    destruct (db c !! key) as [[h|m]|]; simpl; by rewrite ?lookup_insert_ne.
  - unfold sadd. destruct (reachable c); [|done]. simpl.
    destruct (db c !! key) as [[h|m']|]; simpl; by rewrite ?lookup_insert_ne.
  - unfold hdel. destruct (reachable c); [|done]. simpl.
    destruct (db c !! key) as [[h|m]|]; simpl; [|done|done].
    case_bool_decide; simpl; by rewrite ?lookup_insert_ne, ?lookup_delete_ne.
  - unfold del. destruct (reachable c); [|done]. simpl.
    by rewrite lookup_delete_ne.
Qed.

Lemma run_command_reachable (cmd : command) (c : client) :
  reachable (snd (run_command cmd c)) = reachable c.
Proof.
  destruct cmd as [key f|key m|key f|key]; simpl.
  - unfold hset. destruct (reachable c) eqn:E; [|done]. simpl.
    by destruct (db c !! key) as [[h|m]|].
  - unfold sadd. destruct (reachable c) eqn:E; [|done]. simpl.
    by destruct (db c !! key) as [[h|m']|].
  - unfold hdel. destruct (reachable c) eqn:E; [|done]. simpl.
    destruct (db c !! key) as [[h|m]|]; simpl; [|done|done].
    by case_bool_decide.
  - unfold del. by destruct (reachable c) eqn:E.
Qed.

Lemma run_command_never_diverges (cmd : command) (c : client) :
  fst (run_command cmd c) ≠ Diverge.
Proof.
  destruct cmd as [key f|key m|key f|key]; simpl.
  - unfold hset. destruct (reachable c); [|done]. simpl.
    by destruct (db c !! key) as [[h|m]|].
  - unfold sadd. destruct (reachable c); [|done]. simpl.
    by destruct (db c !! key) as [[h|m']|].
  - unfold hdel. destruct (reachable c); [|done]. simpl.
    destruct (db c !! key) as [[h|m]|]; simpl; [|done|done].
    by case_bool_decide.
  - unfold del. by destruct (reachable c).
Qed.

Lemma run_pipeline_app (l1 l2 : list command) (k : nat) (c : client) :
  run_pipeline (l1 ++ l2) k c =
    run_pipeline l2 (fst (run_pipeline l1 k c)) (snd (run_pipeline l1 k c)).
Proof.
  revert k c; induction l1 as [|cmd l1 IH]; intros k c; simpl; [done|].
  destruct (run_command cmd c) as [[]]; apply IH.
Qed.

Lemma run_pipeline_frame (cmds : list command) (n : nat) (c : client) (k : string) :
  Forall (fun cmd => k ≠ commandKey cmd) cmds →
  db (snd (run_pipeline cmds n c)) !! k = db c !! k.
Proof.
  revert n c; induction cmds as [|cmd cmds IH]; intros n c H; simpl; [done|].
  inversion H as [|?? Hk Hrest]; subst.
  pose proof (run_command_frame cmd c k Hk) as Hf.
  destruct (run_command cmd c) as [[] c']; simpl in Hf; rewrite IH by done; done.
Qed.

Lemma run_pipeline_reachable (cmds : list command) (n : nat) (c : client) :
  reachable (snd (run_pipeline cmds n c)) = reachable c.
Proof.
  revert n c; induction cmds as [|cmd cmds IH]; intros n c; simpl; [done|].
  pose proof (run_command_reachable cmd c) as Hr.
  destruct (run_command cmd c) as [[] c']; simpl in Hr; by rewrite IH.
Qed.

End CommandFacts.

(** ** Scanning, and what [deleteFileData] finds *)

Section ScanFacts.
Import JS Redis RedisStore Spec.

Lemma scan_function_keys (cursor count next : nat) (ks : list string) (c : client) :
  scan cursor "function:*" count c = Ok (next, ks) →
  Forall (fun k => startsWith "function:" k = true) ks.
Proof.
  unfold scan. destruct (negb (reachable c)); [done|].
  destruct (count =? 0)%nat; [done|].
  intros [= _ <-]. apply Forall_forall. intros k [Hk _]%list_elem_of_filter.
  by rewrite <- globMatch_function.
Qed.

(** The test [key.includes(':')] holds of every scanned key, so the loop
    body always takes its [continue]. *)
Lemma collectKey_skips (filePath : string) (c : client) (functions : list string) (key : string) :
  startsWith "function:" key = true → collectKey filePath c functions key = functions.
Proof.
  intros H. unfold collectKey. by rewrite function_key_includes_colon.
Qed.

Lemma collect_fold_skips (filePath : string) (c : client) (ks functions : list string) :
  Forall (fun k => startsWith "function:" k = true) ks →
  fold_left (collectKey filePath c) ks functions = functions.
Proof.
  induction 1 as [|k ks Hk _ IH]; simpl; [done|].
  by rewrite collectKey_skips.
Qed.

Lemma collectFunctions_finds_nothing (fuel : nat) (filePath : string) (cursor : nat)
  (functions found : list string) (c : client) :
  collectFunctions fuel filePath cursor functions c = Ok found → found = functions.
Proof.
  revert cursor functions; induction fuel as [|fuel IH]; intros cursor functions; simpl; [done|].
  destruct (scan cursor "function:*" 100 c) as [[next ks]| |] eqn:E; [|done|done].
  rewrite collect_fold_skips by (eapply scan_function_keys; eauto).
  destruct (next =? 0)%nat; [by intros [= <-]|apply IH].
Qed.

(** [deleteFileData] leaves every [function:*] key as it was. *)
Lemma deleteFileData_frame (filePath : string) (c : client) (k : string) :
  startsWith "function:" k = true →
  db (after (deleteFileData filePath) c) !! k = db c !! k.
Proof.
  intros Hk. unfold after, deleteFileData. rewrite try_rethrow. unfold bind at 1.
  destruct (collectFunctions (scanFuel c) filePath 0 [] c) as [found| |] eqn:E; [|done|done].
  apply collectFunctions_finds_nothing in E as ->. simpl. unfold bind.
  change (ret tt c) with (Ok tt, c). cbv beta iota.
  assert (H1 : k ≠ "file:metadata") by (intros ->; done).
  assert (H2 : k ≠ fileMetaKey filePath).
  { intros ->. by rewrite fileMetaKey_not_function in Hk. }
  pose proof (run_command_frame (HDel "file:metadata" filePath) c k H1) as F1.
  simpl in F1.
  destruct (hdel "file:metadata" filePath c) as [[[]| |] c1]; simpl in F1; [|done|done].
  pose proof (run_command_frame (Del (fileMetaKey filePath)) c1 k H2) as F2.
  simpl in F2. by rewrite F2.
Qed.

Lemma deleteFileData_reachable (filePath : string) (c : client) :
  reachable (after (deleteFileData filePath) c) = reachable c.
Proof.
  unfold after, deleteFileData. rewrite try_rethrow. unfold bind at 1.
  destruct (collectFunctions (scanFuel c) filePath 0 [] c) as [found| |] eqn:E; [|done|done].
  apply collectFunctions_finds_nothing in E as ->. simpl. unfold bind.
  change (ret tt c) with (Ok tt, c). cbv beta iota.
  pose proof (run_command_reachable (HDel "file:metadata" filePath) c) as F1.
  simpl in F1.
  destruct (hdel "file:metadata" filePath c) as [[[]| |] c1]; simpl in F1; [|done|done].
  pose proof (run_command_reachable (Del (fileMetaKey filePath)) c1) as F2.
  simpl in F2. by rewrite F2.
Qed.

End ScanFacts.

(** ** Edge symmetry *)

Section EdgeFacts.
Import JS Redis RedisStore Spec.

Lemma edgeInv_empty : edgeInv ∅.
Proof.
  split.
  - intros x y. unfold setAt. rewrite !lookup_empty. set_solver.
  - intros x _. by rewrite !lookup_empty.
Qed.

(** The invariant only reads the [function:*] keys. *)
Lemma edgeInv_frame (d d' : gmap string rval) :
  (∀ k, startsWith "function:" k = true → d' !! k = d !! k) →
  edgeInv d → edgeInv d'.
Proof.
  intros F [Hs Ht]. split.
  - intros x y. unfold setAt.
    rewrite (F _ (callsKey_starts x)), (F _ (calledByKey_starts y)). apply Hs.
  - intros x Hx. rewrite (F _ (callsKey_starts x)), (F _ (calledByKey_starts x)). by apply Ht.
Qed.

Lemma edgeInv_insert_hash (d : gmap string rval) (n : string) (h : gmap string hval) :
  plainName n = true → edgeInv d → edgeInv (<[functionKey n := RHash h]> d).
Proof.
  intros Hn [Hs Ht]. split.
  - intros x y. unfold setAt.
    rewrite !lookup_insert_ne
      by eauto using functionKey_ne_callsKey, functionKey_ne_calledByKey.
    apply Hs.
  - intros x Hx.
    rewrite !lookup_insert_ne
      by eauto using functionKey_ne_callsKey, functionKey_ne_calledByKey.
    by apply Ht.
Qed.

Lemma setAt_insert (d : gmap string rval) (k k' : string) (m : gset string) :
  setAt (<[k := RSet m]> d) k' = if decide (k = k') then m else setAt d k'.
Proof. unfold setAt. rewrite lookup_insert. by case_decide. Qed.

Lemma isHash_insert_set (d : gmap string rval) (k k' : string) (m : gset string) :
  isHash (<[k := RSet m]> d !! k') = if decide (k = k') then false else isHash (d !! k').
Proof. rewrite lookup_insert. by case_decide. Qed.

Lemma setAt_edge_calls (d : gmap string rval) (a b x : string) (ma mb : gset string) :
  setAt (<[calledByKey b := RSet mb]> (<[callsKey a := RSet ma]> d)) (callsKey x) =
    if decide (a = x) then ma else setAt d (callsKey x).
Proof.
  rewrite !setAt_insert.
  destruct (decide (calledByKey b = callsKey x)) as [E|_].
  { symmetry in E. by apply callsKey_ne_calledByKey in E. }
  destruct (decide (a = x)) as [->|Hne]; [by rewrite decide_True|].
  rewrite decide_False; [done|]. by intros ?%callsKey_inj.
Qed.

Lemma setAt_edge_callers (d : gmap string rval) (a b y : string) (ma mb : gset string) :
  setAt (<[calledByKey b := RSet mb]> (<[callsKey a := RSet ma]> d)) (calledByKey y) =
    if decide (b = y) then mb else setAt d (calledByKey y).
Proof.
  rewrite !setAt_insert.
  destruct (decide (b = y)) as [->|Hne]; [by rewrite decide_True|].
  rewrite decide_False by (by intros ?%calledByKey_inj).
  rewrite decide_False; [done|]. apply callsKey_ne_calledByKey.
Qed.

(** Recording the edge from [a] to [b] on both sides. *)
Lemma edgeInv_add_edge (d : gmap string rval) (a b : string) :
  edgeInv d →
  edgeInv (<[calledByKey b := RSet ({[a]} ∪ setAt d (calledByKey b))]>
             (<[callsKey a := RSet ({[b]} ∪ setAt d (callsKey a))]> d)).
Proof.
  intros [Hs Ht]. split.
  - intros x y. rewrite setAt_edge_calls, setAt_edge_callers.
    specialize (Hs x y).
    destruct (decide (a = x)) as [->|Hx], (decide (b = y)) as [->|Hy]; set_solver.
  - intros x Hx. destruct (Ht x Hx) as [H1 H2].
    rewrite !isHash_insert_set. by repeat case_decide.
Qed.

Lemma elem_of_getFunctionCalls (x y : string) (c : client) :
  y ∈ getFunctionCalls x c ↔ reachable c = true ∧ y ∈ setAt (db c) (callsKey x).
Proof.
  unfold getFunctionCalls, smembers, setAt.
  destruct (reachable c); simpl; [|set_solver].
  destruct (db c !! callsKey x) as [[h|m]|]; [set_solver| |set_solver].
  rewrite elem_of_elements. naive_solver.
Qed.

Lemma elem_of_getFunctionCallers (x y : string) (c : client) :
  x ∈ getFunctionCallers y c ↔ reachable c = true ∧ x ∈ setAt (db c) (calledByKey y).
Proof.
  unfold getFunctionCallers, smembers, setAt.
  destruct (reachable c); simpl; [|set_solver].
  destruct (db c !! calledByKey y) as [[h|m]|]; [set_solver| |set_solver].
  rewrite elem_of_elements. naive_solver.
Qed.

Lemma edgeInv_symmetric (c : client) : edgeInv (db c) → edgeSymmetric c.
Proof.
  intros [Hs _] x y.
  rewrite elem_of_getFunctionCalls, elem_of_getFunctionCallers.
  specialize (Hs x y). naive_solver.
Qed.

Lemma setFunction_edgeInv (now : Z) (n : string) (md : Metadata.t) (c : client) :
  plainName n = true → edgeInv (db c) → edgeInv (db (after (setFunction now n md) c)).
Proof.
  intros Hn Hi. unfold after, setFunction. rewrite try_rethrow. unfold hset.
  destruct (reachable c); cbn [negb]; [|assumption].
  destruct (db c !! functionKey n) as [[h|m]|]; cbn [snd on_db db];
    [apply edgeInv_insert_hash; assumption | assumption
    | apply edgeInv_insert_hash; assumption].
Qed.

(** The two [SADD]s of one edge, on a reachable server. *)
Lemma add_edge_commands (a b : string) (c : client) :
  reachable c = true → plainName a = true → plainName b = true →
  noHashAtEdges (db c) →
  (sadd (callsKey a) b ;; sadd (calledByKey b) a) c =
    (Ok tt,
     on_db (fun d => <[calledByKey b := RSet ({[a]} ∪ setAt d (calledByKey b))]>
                       (<[callsKey a := RSet ({[b]} ∪ setAt d (callsKey a))]> d)) c).
Proof.
  intros Hr Ha Hb Ht. unfold bind.
  destruct (Ht a Ha) as [Ha1 _]. destruct (Ht b Hb) as [_ Hb2].
  rewrite (sadd_ok (callsKey a) b c Hr Ha1).
  rewrite sadd_ok.
  - unfold on_db; cbn [db reachable]. f_equal. f_equal. 
    f_equal. f_equal. f_equal.
    unfold setAt at 1. rewrite lookup_insert_ne by apply callsKey_ne_calledByKey. reflexivity.
  - exact Hr.
  - cbn [on_db db]. rewrite lookup_insert_ne by apply callsKey_ne_calledByKey. exact Hb2.
Qed.

Lemma addFunctionCall_edgeInv (a b : string) (c : client) :
  plainName a = true → plainName b = true →
  edgeInv (db c) → edgeInv (db (after (addFunctionCall a b) c)).
Proof.
  intros Ha Hb Hi. unfold after, addFunctionCall. rewrite try_rethrow.
  destruct (reachable c) eqn:Hr.
  - rewrite add_edge_commands by (assumption || apply Hi). cbn [snd on_db db]. by apply edgeInv_add_edge.
  - unfold bind. rewrite sadd_unreachable by assumption. exact Hi.
Qed.

Lemma edgeSafe_app (l1 l2 : list command) : edgeSafe l1 → edgeSafe l2 → edgeSafe (l1 ++ l2).
Proof. induction 1; intros; cbn [app]; try constructor; auto. Qed.

Lemma run_pipeline_edgeInv (cmds : list command) (k : nat) (c : client) :
  edgeSafe cmds → edgeInv (db c) → edgeInv (db (snd (run_pipeline cmds k c))).
Proof.
  intros Hs. revert k c.
  induction Hs as [|n fields rest Hn _ IH|a b rest Ha Hb _ IH]; intros k c Hi.
  - exact Hi.
  - cbn [run_pipeline run_command].
    unfold hset. destruct (reachable c); cbn [negb]; [|by apply IH].
    destruct (db c !! functionKey n) as [[h|m]|]; apply IH; cbn [on_db db];
      [apply edgeInv_insert_hash; assumption | assumption
      | apply edgeInv_insert_hash; assumption].
  - cbn [run_pipeline run_command].
    destruct (reachable c) eqn:Hr.
    + destruct Hi as [Hsym Ht].
      destruct (Ht a Ha) as [Ha1 _]. destruct (Ht b Hb) as [_ Hb2].
      rewrite (sadd_ok (callsKey a) b c Hr Ha1).
      rewrite sadd_ok.
      * apply IH. cbn [on_db db].
        replace (setAt (<[callsKey a:=RSet ({[b]} ∪ setAt (db c) (callsKey a))]> (db c))
                   (calledByKey b)) with (setAt (db c) (calledByKey b)).
        { apply edgeInv_add_edge. by split. }
        unfold setAt at 2. by rewrite lookup_insert_ne by apply callsKey_ne_calledByKey.
      * exact Hr.
      * cbn [on_db db]. rewrite lookup_insert_ne by apply callsKey_ne_calledByKey. exact Hb2.
    + rewrite !sadd_unreachable by assumption. by apply IH.
Qed.

Lemma functionCommands_edgeSafe (now : Z) (fn : BatchIndexer.BatchFn) :
  plainName (BatchIndexer.name fn) = true →
  forallb plainName (BatchIndexer.calls fn) = true →
  edgeSafe (BatchIndexer.functionCommands now fn).
Proof.
  intros Hn Hc. unfold BatchIndexer.functionCommands. constructor; [assumption|].
  induction (BatchIndexer.calls fn) as [|b bs IH]; cbn [flat_map app]; [constructor|].
  cbn [forallb] in Hc. apply andb_true_iff in Hc as [Hb Hbs].
  constructor; auto.
Qed.

Lemma batch_pipeline_edgeSafe (now : Z) (functions : list BatchIndexer.BatchFn) :
  forallb (fun fn => plainName (BatchIndexer.name fn) &&
                     forallb plainName (BatchIndexer.calls fn)) functions = true →
  edgeSafe (flat_map (BatchIndexer.functionCommands now) functions).
Proof.
  induction functions as [|fn fns IH]; cbn [forallb flat_map]; [constructor|].
  intros [[Hn Hc]%andb_true_iff Hrest]%andb_true_iff.
  apply edgeSafe_app; [by apply functionCommands_edgeSafe|by apply IH].
Qed.

Lemma exec_edgeInv (cmds : list command) (c : client) :
  edgeSafe cmds → edgeInv (db c) → edgeInv (db (snd (exec cmds c))).
Proof.
  intros Hs Hi. unfold exec.
  pose proof (run_pipeline_edgeInv cmds 0 c Hs Hi) as H.
  by destruct (run_pipeline cmds 0 c).
Qed.

Lemma exec_frame (cmds : list command) (c : client) (k : string) :
  Forall (fun cmd => k ≠ commandKey cmd) cmds →
  db (snd (exec cmds c)) !! k = db c !! k.
Proof.
  intros H. unfold exec.
  pose proof (run_pipeline_frame cmds 0 c k H) as F.
  by destruct (run_pipeline cmds 0 c).
Qed.

Lemma batchIndexFunctions_edgeInv (now : Z) (functions : list BatchIndexer.BatchFn) (c : client) :
  forallb (fun fn => plainName (BatchIndexer.name fn) &&
                     forallb plainName (BatchIndexer.calls fn)) functions = true →
  edgeInv (db c) → edgeInv (db (after (BatchIndexer.batchIndexFunctions now functions) c)).
Proof.
  intros Hp Hi. unfold after, BatchIndexer.batchIndexFunctions.
  destruct functions as [|fn fns]; [exact Hi|].
  pose proof (exec_edgeInv _ c (batch_pipeline_edgeSafe now (fn :: fns) Hp) Hi) as H.
  unfold try_catch, bind, ret.
  destruct (exec (flat_map (BatchIndexer.functionCommands now) (fn :: fns)) c) as [[k|e|] c'];
    exact H.
Qed.

Lemma batchDeleteFiles_frame (filePaths : list string) (c : client) (k : string) :
  startsWith "function:" k = true →
  db (after (BatchIndexer.batchDeleteFiles filePaths) c) !! k = db c !! k.
Proof.
  intros Hk. unfold after, BatchIndexer.batchDeleteFiles.
  destruct filePaths as [|p ps]; [reflexivity|].
  set (cmds := flat_map _ (p :: ps)).
  assert (F : Forall (fun cmd => k ≠ commandKey cmd) cmds).
  { subst cmds. apply Forall_flat_map, Forall_forall. intros q _.
    repeat constructor; cbn [commandKey]; intros ->.
    - by rewrite fileMetadata_not_function in Hk.
    - by rewrite fileMetaKey_not_function in Hk. }
  pose proof (exec_frame cmds c k F) as E.
  unfold bind, ret. by destruct (exec cmds c) as [[n|e|] c'].
Qed.

Lemma setFileHash_frame (now : Z) (filePath hash : string) (c : client) (k : string) :
  startsWith "function:" k = true →
  db (after (setFileHash now filePath hash) c) !! k = db c !! k.
Proof.
  intros Hk. unfold after, setFileHash. rewrite try_rethrow. unfold bind.
  assert (H1 : k ≠ "file:metadata").
  { intros ->. by rewrite fileMetadata_not_function in Hk. }
  assert (H2 : k ≠ fileMetaKey filePath).
  { intros ->. by rewrite fileMetaKey_not_function in Hk. }
  pose proof (run_command_frame (HSet "file:metadata" {[filePath := HStr hash]}) c k H1) as F1.
  cbn [run_command] in F1.
  destruct (hset "file:metadata" {[filePath := HStr hash]} c) as [[[]|e|] c1];
    cbn [snd] in *; [|exact F1|exact F1].
  pose proof (run_command_frame (HSet (fileMetaKey filePath) {["lastIndexed" := HNum now]})
                c1 k H2) as F2.
  cbn [run_command] in F2. by rewrite F2.
Qed.

Lemma perform_edgeInv (o : op) (c : client) :
  plainOp o = true → edgeInv (db c) → edgeInv (db (perform o c)).
Proof.
  intros Hp Hi. destruct o; cbn [perform plainOp] in *.
  - by apply setFunction_edgeInv.
  - apply andb_true_iff in Hp as [Ha Hb]. by apply addFunctionCall_edgeInv.
  - eapply edgeInv_frame; [|exact Hi]. intros k Hk. by apply deleteFileData_frame.
  - eapply edgeInv_frame; [|exact Hi]. intros k Hk. by apply setFileHash_frame.
  - by apply batchIndexFunctions_edgeInv.
  - eapply edgeInv_frame; [|exact Hi]. intros k Hk. by apply batchDeleteFiles_frame.
  - exact Hi.
Qed.

Lemma performAll_edgeInv (ops : list op) (c : client) :
  forallb plainOp ops = true → edgeInv (db c) → edgeInv (db (performAll ops c)).
Proof.
  revert c; induction ops as [|o ops IH]; intros c Hp Hi; [exact Hi|].
  cbn [forallb] in Hp. apply andb_true_iff in Hp as [Ho Hops].
  unfold performAll. cbn [fold_left]. apply IH; [assumption|].
  by apply perform_edgeInv.
Qed.

End EdgeFacts.

(** ** Deleting the data of a file *)

Section DeleteFileData.
Import JS Redis RedisStore Spec.

(** C1 (the code departs from the claim).  [deleteFileData "a.js"] on a
    store that holds the function [foo] of [a.js] completes without error
    and removes the fingerprint entry and the per-file record, but the
    function record stays: [foo] is still listed by [getAllFunctions] and
    still returned by [getFunction].  The scan loop skips every key that
    contains a colon, and every key matching [function:*] does. *)
Theorem deleteFileData_keeps_function_records :
  let c' := after (deleteFileData "a.js") fooIndexed in
  fst (deleteFileData "a.js" fooIndexed) = Ok tt ∧
  getAllFunctions 0 100 fooIndexed = (0%nat, ["foo"]) ∧
  getAllFunctions 0 100 c' = (0%nat, ["foo"]) ∧
  (FunctionInfo.file <$> getFunction "foo" c') = Some (Some "a.js") ∧
  getFileHash "a.js" fooIndexed = Some "9e107d9d" ∧
  getFileHash "a.js" c' = None ∧
  db c' !! fileMetaKey "a.js" = None.
Proof. vm_compute. repeat split; reflexivity. Qed.

End DeleteFileData.

(** ** The edge sets *)

Section EdgeSymmetry.
Import JS Redis RedisStore Spec.

(** C2, as stated, fails: a function whose name ends in [:called_by]
    occupies the key of another function's caller set, the second [SADD]
    of [addFunctionCall] is answered by an error reply, and the edge stays
    recorded on one side only. *)
Lemma edge_symmetry_fails_for_colon_names :
  ¬ edgeSymmetric
      (performAll [SetFunction 5 "b:called_by" fooMetadata; AddFunctionCall "a" "b"] empty).
Proof.
  intros H. specialize (H "a" "b"). revert H. vm_compute. intros [H _].
  specialize (H (list_elem_of_here _ _)). inversion H.
Qed.

(** C2, amended.  In every state reached from the empty store by
    [setFunction], [addFunctionCall], [deleteFileData], [setFileHash] and
    the two batch submissions, with the server coming and going between
    operations, and with function names that contain no colon: [y] is in
    the calls of [x] iff [x] is in the callers of [y]. *)
Theorem edge_symmetry_for_plain_names (ops : list op) :
  forallb plainOp ops = true → edgeSymmetric (performAll ops empty).
Proof.
  intros Hp. apply edgeInv_symmetric, performAll_edgeInv; [assumption|].
  apply edgeInv_empty.
Qed.

Lemma edge_symmetry_for_plain_names_witness :
  edgeSymmetric
    (performAll [SetFunction 5 "a" fooMetadata; AddFunctionCall "a" "b";
                 Connection false; AddFunctionCall "b" "c"; Connection true;
                 DeleteFileData "a.js"; AddFunctionCall "c" "a"] empty).
Proof. apply edge_symmetry_for_plain_names. vm_compute. reflexivity. Defined.

End EdgeSymmetry.

(** ** The traversals *)

Section Traversals.
Import JS Redis RedisStore FunctionIndexer Spec.

Lemma Set_has_add (x : string) (s : list string) : Set_has x (Set_add x s) = true.
Proof.
  unfold Set_add, Set_has. destruct (bool_decide (x ∈ s)) eqn:E.
  - exact E.
  - apply bool_decide_eq_true_2. set_solver.
Qed.

Lemma elem_of_Set_add (x y : string) (s : list string) :
  y ∈ Set_add x s ↔ y = x ∨ y ∈ s.
Proof.
  unfold Set_add, Set_has. destruct (bool_decide (x ∈ s)) eqn:E; [|set_solver].
  apply bool_decide_eq_true_1 in E. set_solver.
Qed.

(** The caller has just been added to [affected] when the recursive call
    tests [affected.has(functionName)]: with fuel left, that call returns
    at once. *)
Lemma findAffected_on_added (fuel : nat) (c : client) (caller : string)
  (affected : list string) (depth maxDepth : Z) :
  _findAffectedRecursive (S fuel) c caller (Set_add caller affected) depth maxDepth =
    Ok (Set_add caller affected).
Proof. cbn [_findAffectedRecursive]. by rewrite Set_has_add, orb_true_r. Qed.

Lemma affectedCallers_adds (fuel : nat) (c : client) (depth maxDepth : Z)
  (callers affected : list string) :
  affectedCallers
    (fun caller affected' => _findAffectedRecursive (S fuel) c caller affected' depth maxDepth)
    callers affected =
  Ok (fold_left (fun acc caller => Set_add caller acc) callers affected).
Proof.
  revert affected; induction callers as [|x xs IH]; intros affected; [reflexivity|].
  cbn [affectedCallers fold_left]. rewrite findAffected_on_added. apply IH.
Qed.

Lemma elem_of_fold_Set_add (callers affected : list string) (y : string) :
  y ∈ fold_left (fun acc caller => Set_add caller acc) callers affected ↔
  y ∈ callers ∨ y ∈ affected.
Proof.
  revert affected; induction callers as [|x xs IH]; intros affected; cbn [fold_left].
  - set_solver.
  - rewrite IH, elem_of_Set_add. set_solver.
Qed.

(** What [_findAffectedRecursive] returns, for any fuel that covers
    [maxDepth]. *)
Lemma findAffected_result (fuel : nat) (c : client) (f : string) (maxDepth : Z) :
  (depthFuel maxDepth ≤ fuel)%nat →
  _findAffectedRecursive fuel c f [] 0 maxDepth =
    Ok (if (maxDepth <=? 0)%Z then []
        else fold_left (fun acc caller => Set_add caller acc) (getFunctionCallers f c) []).
Proof.
  unfold depthFuel. intros Hf. destruct fuel as [|fuel]; [lia|].
  cbn [_findAffectedRecursive]. destruct (Z.leb_spec maxDepth 0) as [H|H]; [reflexivity|].
  cbn [orb]. unfold Set_has. rewrite bool_decide_eq_false_2 by set_solver.
  destruct fuel as [|fuel]; [lia|]. apply affectedCallers_adds.
Qed.

Lemma findAffected_members (fuel : nat) (c : client) (f : string) (maxDepth : Z) :
  (depthFuel maxDepth ≤ fuel)%nat →
  ∃ r, _findAffectedRecursive fuel c f [] 0 maxDepth = Ok r ∧
       ∀ g, g ∈ r → ∃ n, (1 ≤ n)%nat ∧ (Z.of_nat n ≤ maxDepth)%Z ∧ callerWithin c n f g.
Proof.
  intros Hf. rewrite findAffected_result by assumption. eexists; split; [reflexivity|].
  intros g Hg. destruct (Z.leb_spec maxDepth 0) as [H|H]; [by apply elem_of_nil in Hg|].
  apply elem_of_fold_Set_add in Hg as [Hg|Hg]; [|by apply elem_of_nil in Hg].
  exists 1%nat. repeat split; [lia|lia|by constructor].
Qed.

(** C3, as stated, fails: a function that calls itself is in its own
    affected set, and on the cycle [a -> b -> c -> a] the reverse trace of
    [c] stops after the direct caller [b]. *)
Lemma findAffected_contains_recursive_start :
  findAffectedFunctions "f" 5 recursiveStore = Ok ["f"] ∧
  findAffectedFunctions "c" 5 cycleStore = Ok ["b"].
Proof. vm_compute. split; reflexivity. Qed.

(** C3, amended.  [findAffectedFunctions f maxDepth] returns only
    functions that reach [f] through between 1 and [maxDepth] stored
    caller edges; [f] itself is in the result only if it is one of them. *)
Theorem findAffected_returns_callers_only (c : client) (f : string) (maxDepth : Z) :
  ∃ r, findAffectedFunctions f maxDepth c = Ok r ∧
       (∀ g, g ∈ r → ∃ n, (1 ≤ n)%nat ∧ (Z.of_nat n ≤ maxDepth)%Z ∧ callerWithin c n f g) ∧
       ((∀ n, (Z.of_nat n ≤ maxDepth)%Z → ¬ callerWithin c n f f) → f ∉ r).
Proof.
  destruct (findAffected_members (depthFuel maxDepth) c f maxDepth) as (r & Hr & Hm); [lia|].
  exists r. split; [exact Hr|]. split; [exact Hm|].
  intros Hno Hin. destruct (Hm f Hin) as (n & _ & Hn & Hc). by apply (Hno n).
Qed.

(** The forward trace: what the loop and the recursion keep. *)



Lemma traceCalls_depths
  (recurse : string → gset string → result (list node * gset string))
  (depth maxDepth : Z) :
  (∀ g V kids V', recurse g V = Ok (kids, V') →
     depthsOk maxDepth (Node g kids (depth + 1)) = true) →
  ∀ calls V nodes V', traceCalls recurse depth calls V = Ok (nodes, V') →
     forallb (fun ch => (FunctionIndexer.depth ch =? depth + 1)%Z && depthsOk maxDepth ch)
             nodes = true.
Proof.
  intros Hrec. induction calls as [|g calls IH]; intros V nodes V' H; cbn [traceCalls] in H.
  - by injection H as <- <-.
  - destruct (recurse g V) as [[kids V1]| |] eqn:Hg; [|discriminate|discriminate].
    destruct (traceCalls recurse depth calls V1) as [[siblings V2]| |] eqn:Hl;
      [|discriminate|discriminate].
    injection H as <- <-. cbn [forallb FunctionIndexer.depth].
    rewrite Z.eqb_refl, (Hrec _ _ _ _ Hg), (IH _ _ _ Hl). reflexivity.
Qed.

Lemma trace_depths (fuel : nat) (c : client) (maxDepth : Z) :
  ∀ f V depth kids V',
    _traceDependenciesRecursive fuel c f V depth maxDepth = Ok (kids, V') →
    depthsOk maxDepth (Node f kids depth) = true.
Proof.
  induction fuel as [|fuel IH]; intros f V depth kids V' H;
    cbn [_traceDependenciesRecursive] in H; [discriminate|].
  destruct ((maxDepth <=? depth)%Z || bool_decide (f ∈ V)) eqn:G.
  - by injection H as <- <-.
  - apply orb_false_iff in G as [Hd _]. apply Z.leb_gt in Hd.
    apply (traceCalls_depths _ depth maxDepth) in H.
    2:{ intros g W ks W' Hg. apply (IH g W (depth + 1)%Z ks W' Hg). }
    cbn [depthsOk]. rewrite H, andb_true_r.
    destruct kids; [reflexivity|]. by apply Z.ltb_lt.
Qed.

Lemma traceCalls_total
  (recurse : string → gset string → result (list node * gset string)) (depth : Z) :
  (∀ g V, ∃ kids V', recurse g V = Ok (kids, V')) →
  ∀ calls V, ∃ nodes V', traceCalls recurse depth calls V = Ok (nodes, V').
Proof.
  intros Hrec. induction calls as [|g calls IH]; intros V; cbn [traceCalls]; [eauto|].
  destruct (Hrec g V) as (kids & V1 & ->). destruct (IH V1) as (siblings & V2 & ->). eauto.
Qed.

(** The recursion is never nested deeper than [maxDepth - depth] calls
    below the current one. *)
Lemma trace_total (fuel : nat) (c : client) (maxDepth : Z) :
  ∀ f V depth, (Z.to_nat (maxDepth - depth) < fuel)%nat →
    ∃ kids V', _traceDependenciesRecursive fuel c f V depth maxDepth = Ok (kids, V').
Proof.
  induction fuel as [|fuel IH]; intros f V depth Hf; [lia|].
  cbn [_traceDependenciesRecursive].
  destruct ((maxDepth <=? depth)%Z || bool_decide (f ∈ V)) eqn:G; [eauto|].
  apply orb_false_iff in G as [Hd _]. apply Z.leb_gt in Hd.
  apply traceCalls_total. intros g W. apply IH. lia.
Qed.

Lemma traceCalls_functions
  (recurse : string → gset string → result (list node * gset string)) (depth : Z) :
  ∀ calls V nodes V', traceCalls recurse depth calls V = Ok (nodes, V') →
    map function nodes = calls.
Proof.
  induction calls as [|g calls IH]; intros V nodes V' H; cbn [traceCalls] in H.
  - by injection H as <- <-.
  - destruct (recurse g V) as [[kids V1]| |]; [|discriminate|discriminate].
    destruct (traceCalls recurse depth calls V1) as [[siblings V2]| |] eqn:Hl;
      [|discriminate|discriminate].
    injection H as <- <-. cbn [map function]. f_equal. by eapply IH.
Qed.





(** C5.  With any fuel that covers [maxDepth] both recursions return:
    the forward trace yields a tree in which only nodes above [maxDepth]
    have children and each child is one level below its parent, and the
    reverse trace yields names that reach the start through at most
    [maxDepth] caller edges.  Cycles in the stored edges do not matter. *)
Theorem traversals_terminate_within_maxDepth
  (c : client) (f : string) (maxDepth : Z) (fuel : nat) :
  (depthFuel maxDepth ≤ fuel)%nat →
  (∃ kids V, _traceDependenciesRecursive fuel c f ∅ 0 maxDepth = Ok (kids, V) ∧
             depthsOk maxDepth (Node f kids 0) = true) ∧
  (∃ r, _findAffectedRecursive fuel c f [] 0 maxDepth = Ok r ∧
        ∀ g, g ∈ r → ∃ n, (1 ≤ n)%nat ∧ (Z.of_nat n ≤ maxDepth)%Z ∧ callerWithin c n f g).
Proof.
  intros Hf. split; [|by apply findAffected_members].
  destruct (trace_total fuel c maxDepth f ∅ 0) as (kids & V' & H).
  { unfold depthFuel in Hf. lia. }
  exists kids, V'. split; [exact H|]. by apply trace_depths in H.
Qed.

Lemma traversals_terminate_within_maxDepth_witness :
  (∃ kids V, _traceDependenciesRecursive 6 cycleStore "a" ∅ 0 5 = Ok (kids, V) ∧
             depthsOk 5 (Node "a" kids 0) = true) ∧
  (∃ r, _findAffectedRecursive 6 cycleStore "a" [] 0 5 = Ok r ∧
        ∀ g, g ∈ r → ∃ n, (1 ≤ n)%nat ∧ (Z.of_nat n ≤ 5)%Z ∧ callerWithin cycleStore n "a" g).
Proof. apply (traversals_terminate_within_maxDepth cycleStore "a"). vm_compute. lia. Defined.

End Traversals.

(** ** Writing a function record *)

Section SetFunction.
Import JS Redis RedisStore Spec.

Lemma functionFields_unfold (now : Z) (md : Metadata.t) :
  functionFields now md =
    <["file" := HStr (Metadata.file md)]>
    (<["line" := HNum (Metadata.line md)]>
    (<["endLine" := HNum (if (Metadata.endLine md =? 0)%Z
                          then Metadata.line md else Metadata.endLine md)]>
    (<["params" := HJson (Metadata.params md)]>
    (<["isAsync" := HStr (if Metadata.isAsync md then "1" else "0")]>
    (<["isExported" := HStr (if Metadata.isExported md then "1" else "0")]>
    (<["type" := HStr (if bool_decide (Metadata.type md = "")
                       then "function" else Metadata.type md)]>
    (<["lastIndexed" := HNum now]> ∅))))))).
Proof. reflexivity. Qed.

(** The eight fields are written whatever the clock says. *)
Lemma functionFields_is_Some (now now' : Z) (md : Metadata.t) (field : string) :
  is_Some (functionFields now md !! field) → is_Some (functionFields now' md !! field).
Proof.
  rewrite !functionFields_unfold, !lookup_insert.
  repeat (case_decide; [intros _; eexists; reflexivity|]).
  trivial.
Qed.

Lemma functionFields_overwrite (t1 t2 : Z) (md : Metadata.t) :
  functionFields t2 md ∪ functionFields t1 md = functionFields t2 md.
Proof.
  apply map_eq. intros field. rewrite lookup_union.
  destruct (functionFields t2 md !! field) as [v|] eqn:E2.
  - by destruct (functionFields t1 md !! field).
  - destruct (functionFields t1 md !! field) as [w|] eqn:E1; [|reflexivity].
    destruct (functionFields_is_Some t1 t2 md field) as [v Hv]; [by eexists|].
    congruence.
Qed.

(** C9, as stated, fails: the second call stamps the record with its own
    [Date.now()], which [getFunction] returns as [lastIndexed]. *)
Lemma setFunction_twice_changes_lastIndexed :
  let once := after (setFunction 1 "foo" fooMetadata) empty in
  let twice := after (setFunction 2 "foo" fooMetadata) once in
  getFunction "foo" once = Some (storedInfo 1 fooMetadata) ∧
  getFunction "foo" twice = Some (storedInfo 2 fooMetadata) ∧
  getFunction "foo" twice ≠ getFunction "foo" once.
Proof.
  vm_compute. split; [reflexivity|]. split; [reflexivity|]. intros H. discriminate H.
Qed.

(** C9, amended.  Calling [setFunction] twice with the same name and
    metadata leaves the store, and returns, as the second call alone
    does: the state is that of one call, stamped with the later clock
    reading. *)
Theorem setFunction_twice_is_the_later_call
  (t1 t2 : Z) (functionName : string) (metadata : Metadata.t) (c : client) :
  (setFunction t1 functionName metadata ;; setFunction t2 functionName metadata) c =
    setFunction t2 functionName metadata c.
Proof.
  assert (E : ∀ t c0, setFunction t functionName metadata c0 =
                      hset (functionKey functionName) (functionFields t metadata) c0).
  { intros. apply try_rethrow. }
  unfold bind. rewrite !E. unfold hset at 1 2.
  destruct (reachable c) eqn:Hr; cbn [negb]; [|reflexivity].
  destruct (db c !! functionKey functionName) as [[h|m]|] eqn:Hk; [| reflexivity |].
  - rewrite E. unfold hset, on_db. cbn [db reachable]. rewrite Hr. cbn [negb].
    rewrite lookup_insert_eq, insert_insert_eq.
    by rewrite (assoc_L (∪)), functionFields_overwrite.
  - rewrite E. unfold hset, on_db. cbn [db reachable]. rewrite Hr. cbn [negb].
    rewrite lookup_insert_eq, insert_insert_eq.
    by rewrite functionFields_overwrite.
Qed.

End SetFunction.

(** ** Batch submission *)

Section Batch.
Import JS Redis RedisStore BatchIndexer Spec.

Lemma run_command_unreachable (cmd : command) (c : client) :
  reachable c = false → run_command cmd c = (Throw ConnectionError, c).
Proof.
  intros Hr. destruct cmd; cbn [run_command]; unfold hset, sadd, hdel, del;
    rewrite Hr; reflexivity.
Qed.

(** On an unreachable server every command of a pipeline fails and the
    store stays as it is. *)
Lemma run_pipeline_unreachable (cmds : list command) :
  ∀ failed c, reachable c = false →
    run_pipeline cmds failed c = ((failed + length cmds)%nat, c).
Proof.
  induction cmds as [|cmd cmds IH]; intros failed c Hr; cbn [run_pipeline length].
  - f_equal. lia.
  - rewrite run_command_unreachable by exact Hr. rewrite IH by exact Hr. f_equal. lia.
Qed.

(** C8 (the code departs from the claim).  [pipeline.exec()] resolves
    also when its commands fail, and [batchIndexFunctions] does not look
    at the array it resolves with.  So for a non-empty list of [n] records
    the report is [{indexed: n, errors: 0}] on every store; on an
    unreachable server, where the submission fails as a whole, every
    command has failed and nothing is written, and the report is still
    [{indexed: n, errors: 0}] and not [{indexed: 0, errors: n}]. *)
Theorem batch_reports_success_when_submission_fails
  (now : Z) (functions : list BatchFn) (c : client) :
  functions ≠ [] →
  let n := length functions in
  let pipeline := flat_map (functionCommands now) functions in
  fst (batchIndexFunctions now functions c) =
    Ok {| FunctionIndexer.indexed := n; FunctionIndexer.errors := 0 |} ∧
  (reachable c = false →
     exec pipeline c = (Ok (length pipeline), c) ∧
     batchIndexFunctions now functions c =
       (Ok {| FunctionIndexer.indexed := n; FunctionIndexer.errors := 0 |}, c)).
Proof.
  intros Hne n pipeline. subst n.
  unfold batchIndexFunctions. destruct functions as [|fn fns]; [congruence|].
  fold pipeline. unfold try_catch, bind, ret, exec. split.
  - by destruct (run_pipeline pipeline 0 c) as [failed c1].
  - intros Hr. by rewrite run_pipeline_unreachable by exact Hr.
Qed.

Lemma batch_reports_success_when_submission_fails_witness :
  let functions :=
    [ {| name := "a"; metadata := fooMetadata; calls := ["b"; "c"] |};
      {| name := "b"; metadata := fooMetadata; calls := [] |} ] in
  let down := perform (Connection false) empty in
  fst (batchIndexFunctions 5 functions down) =
    Ok {| FunctionIndexer.indexed := 2; FunctionIndexer.errors := 0 |} ∧
  exec (flat_map (functionCommands 5) functions) down = (Ok 6%nat, down) ∧
  batchIndexFunctions 5 functions down =
    (Ok {| FunctionIndexer.indexed := 2; FunctionIndexer.errors := 0 |}, down) ∧
  getFunction "a" (perform (Connection true) down) = None.
Proof.
  intros functions down.
  destruct (batch_reports_success_when_submission_fails 5 functions down) as [H1 H2];
    [discriminate|].
  destruct (H2 eq_refl) as [H3 H4].
  split; [exact H1|]. split; [exact H3|]. split; [exact H4|]. reflexivity.
Defined.

End Batch.

(** ** Enumeration and counting *)

Section Enumeration.
Import JS Redis RedisStore Spec.


Lemma countedKeys_app (l1 l2 : list string) :
  countedKeys (l1 ++ l2) = (countedKeys l1 + countedKeys l2)%nat.
Proof. unfold countedKeys. by rewrite !filter_app, length_app. Qed.

Lemma countedKeys_perm (l1 l2 : list string) : l1 ≡ₚ l2 → countedKeys l1 = countedKeys l2.
Proof. intros H. unfold countedKeys. by rewrite H. Qed.


(** The counting loop of [getStats] sees every key once. *)
Lemma countFunctions_counts (fuel cursor functionCount : nat) (c : client) :
  reachable c = true → (length (keys c) - cursor < fuel)%nat →
  countFunctions fuel cursor functionCount c =
    Ok (functionCount + countedKeys (drop cursor (keys c)))%nat.
Proof.
  intros Hr. revert cursor functionCount.
  induction fuel as [|fuel IH]; intros cursor functionCount Hf; [lia|].
  cbn [countFunctions]. unfold scan. rewrite Hr. cbn [negb].
  change (100 =? 0)%nat with false. cbv iota.
  set (window := take 100 (drop cursor (keys c))).
  assert (Hsplit : drop cursor (keys c) = window ++ drop (cursor + 100) (keys c)).
  { subst window. by rewrite <- drop_drop, take_drop. }
  fold (countedKeys window).
  destruct (cursor + 100 <? length (keys c))%nat eqn:Hlt.
  - apply Nat.ltb_lt in Hlt.
    replace ((cursor + 100 =? 0)%nat) with false by (symmetry; apply Nat.eqb_neq; lia).
    rewrite IH by lia. rewrite Hsplit, countedKeys_app. f_equal. lia.
  - apply Nat.ltb_ge in Hlt. rewrite Nat.eqb_refl.
    rewrite Hsplit, countedKeys_app, (drop_ge (keys c)) by lia.
    change (countedKeys []) with 0%nat. f_equal. lia.
Qed.

Lemma getStats_count (now : Z) (c : client) (n : nat) :
  hlen "file:metadata" c = Ok n →
  getStats now c =
    Ok {| filesIndexed := n; functionsIndexed := countedKeys (keys c); timestamp := now |}.
Proof.
  intros H. unfold getStats. rewrite H.
  assert (Hr : reachable c = true).
  { unfold hlen in H. by destruct (reachable c). }
  rewrite countFunctions_counts by (done || unfold scanFuel; lia).
  by rewrite drop_0.
Qed.

(** The keys after a write to one key. *)
Lemma keys_insert (k : string) (v : rval) (c : client) :
  keys (on_db (insert k v) c) ≡ₚ
    match db c !! k with Some _ => keys c | None => k :: keys c end.
Proof.
  unfold keys, on_db. cbn [db].
  destruct (db c !! k) as [w|] eqn:E.
  - rewrite <- (insert_delete_eq (db c)).
    rewrite map_to_list_insert by apply lookup_delete_eq.
    rewrite <- (insert_delete_id (db c) k w E) at 2.
    rewrite map_to_list_insert by apply lookup_delete_eq. reflexivity.
  - by rewrite map_to_list_insert.
Qed.

Lemma startsWith_includes (p n : string) :
  startsWith p n = true → includes (":" +:+ p) (functionKey n) = true.
Proof.
  intros H. apply startsWith_inv in H. rewrite H.
  change (functionKey (p +:+ slice (String.length p) n))
    with ("function" +:+ (":" +:+ p) +:+ slice (String.length p) n).
  apply includes_app_r, includes_prefix.
Qed.

(** Names that begin with [calls] or [called_by] have such keys. *)
Lemma calls_prefix_hides (n : string) :
  startsWith "calls" n = true ∨ startsWith "called_by" n = true →
  isFunctionKey (functionKey n) = false.
Proof.
  unfold isFunctionKey. intros [H|H].
  - pose proof (startsWith_includes "calls" n H) as E.
    change (":" +:+ "calls") with ":calls" in E. by rewrite E.
  - pose proof (startsWith_includes "called_by" n H) as E.
    change (":" +:+ "called_by") with ":called_by" in E. rewrite E. apply andb_false_r.
Qed.

Lemma getFunction_after_hset (now : Z) (md : Metadata.t) (h : gmap string hval)
  (n : string) (c : client) :
  reachable c = true →
  db c !! functionKey n = Some (RHash (functionFields now md ∪ h)) →
  getFunction n c = Some (storedInfo now md).
Proof.
  intros Hr Hk. unfold getFunction, hgetall. rewrite Hr, Hk. cbn [negb].
  assert (L : ∀ field v, functionFields now md !! field = Some v →
                         (functionFields now md ∪ h) !! field = Some v).
  { intros field v Hv. by apply lookup_union_Some_l. }
  rewrite bool_decide_eq_false_2.
  2:{ intros Hs. apply map_size_empty_inv in Hs.
      specialize (L "file" _ eq_refl). rewrite Hs in L. by rewrite lookup_empty in L. }
  rewrite (L "params" _ eq_refl), (L "file" _ eq_refl), (L "line" _ eq_refl),
    (L "endLine" _ eq_refl), (L "isAsync" _ eq_refl), (L "isExported" _ eq_refl),
    (L "type" _ eq_refl), (L "lastIndexed" _ eq_refl).
  cbn [asParams asString asInt]. unfold storedInfo. f_equal. f_equal.
  - by destruct (Metadata.isAsync md).
  - by destruct (Metadata.isExported md).
Qed.

Lemma countFunctions_all (c : client) :
  reachable c = true → countFunctions (scanFuel c) 0 0 c = Ok (countedKeys (keys c)).
Proof.
  intros Hr. rewrite countFunctions_counts by (done || unfold scanFuel; lia).
  by rewrite drop_0.
Qed.


(** What a successful [setFunction] leaves under the key. *)
Lemma setFunction_Ok (now : Z) (n : string) (md : Metadata.t) (c c' : client) :
  setFunction now n md c = (Ok tt, c') →
  reachable c = true ∧
  ∃ h, c' = on_db (insert (functionKey n) (RHash (functionFields now md ∪ h))) c.
Proof.
  unfold setFunction. rewrite try_rethrow. unfold hset.
  destruct (reachable c); cbn [negb]; [|discriminate].
  destruct (db c !! functionKey n) as [[h|m]|]; [| discriminate |].
  - intros [= <-]. split; [reflexivity|]. by exists h.
  - intros [= <-]. split; [reflexivity|]. exists ∅. by rewrite (right_id_L ∅ (∪)).
Qed.



End Enumeration.

(** ** Indexing files *)

Section Indexing.
Import JS Redis RedisStore Spec.
Import FunctionIndexer Parsers CodebaseIndexer.

Lemma bind_Ok {A B} (m : M A) (k : A → M B) (c c' : client) (a : A) :
  m c = (Ok a, c') → (x <- m ;; k x) c = k a c'.
Proof. intros H. unfold bind. by rewrite H. Qed.

Lemma bind_Throw {A B} (m : M A) (k : A → M B) (c c' : client) (e : error) :
  m c = (Throw e, c') → (x <- m ;; k x) c = (Throw e, c').
Proof. intros H. unfold bind. by rewrite H. Qed.

Lemma hset_unreachable (key : string) (fields : gmap string hval) (c : client) :
  reachable c = false → hset key fields c = (Throw ConnectionError, c).
Proof. intros H. unfold hset. by rewrite H. Qed.

Lemma setFunction_unreachable (now : Z) (n : string) (md : Metadata.t) (c : client) :
  reachable c = false → setFunction now n md c = (Throw ConnectionError, c).
Proof. intros H. unfold setFunction. rewrite try_rethrow. by apply hset_unreachable. Qed.

Lemma setFileHash_unreachable (now : Z) (p h : string) (c : client) :
  reachable c = false → setFileHash now p h c = (Throw ConnectionError, c).
Proof.
  intros H. unfold setFileHash. rewrite try_rethrow.
  by apply bind_Throw, hset_unreachable.
Qed.

Lemma deleteFileData_unreachable (p : string) (c : client) :
  reachable c = false → deleteFileData p c = (Throw ConnectionError, c).
Proof.
  intros H. unfold deleteFileData. rewrite try_rethrow. apply bind_Throw.
  unfold scanFuel. cbn [collectFunctions]. unfold scan. by rewrite H.
Qed.

Lemma getFileHash_unreachable (p : string) (c : client) :
  reachable c = false → getFileHash p c = None.
Proof. intros H. unfold getFileHash, hget. by rewrite H. Qed.

Lemma getStats_unreachable (now : Z) (c : client) :
  reachable c = false → getStats now c = Ok (noStats now).
Proof. intros H. unfold getStats, hlen. by rewrite H. Qed.

Lemma indexLoop_unreachable (now : Z) (file : string) (fns : list Fn.t)
  (i e : nat) (c : client) :
  reachable c = false →
  indexLoop now file fns i e c = (Ok {| FunctionIndexer.indexed := i; FunctionIndexer.errors := e + length fns |}, c).
Proof.
  intros H. revert e; induction fns as [|fn fns IH]; intros e; cbn [indexLoop length].
  - unfold ret. do 3 f_equal. lia.
  - unfold bind at 1. unfold try_catch, indexFunction. unfold bind at 1 2.
    rewrite setFunction_unreachable by exact H. cbn [ret].
    rewrite IH. do 3 f_equal. lia.
Qed.

(** After a successful [deleteFileData] the file has no fingerprint. *)
Lemma deleteFileData_clears_hash (p : string) (c c' : client) :
  deleteFileData p c = (Ok tt, c') → getFileHash p c' = None.
Proof.
  unfold deleteFileData. rewrite try_rethrow. unfold bind at 1.
  destruct (collectFunctions (scanFuel c) p 0 [] c) as [found| |] eqn:E;
    [|discriminate|discriminate].
  apply collectFunctions_finds_nothing in E as ->. cbn [for_each]. unfold bind, ret.
  unfold hdel at 1. destruct (reachable c) eqn:Hr; cbn [negb]; [|discriminate].
  assert (Hne : fileMetaKey p ≠ "file:metadata").
  { intros Heq. apply (inj (String.app "file:")) in Heq.
    pose proof (f_equal String.length Heq) as L. rewrite string_length_app in L.
    destruct p as [|x1 [|x2 [|x3 [|x4 p]]]]; cbn [String.length] in L; try lia.
    rewrite !string_app_cons, string_app_nil in Heq. congruence. }
  unfold getFileHash, hget.
  destruct (db c !! "file:metadata") as [[h|m]|] eqn:Hk; [| discriminate |].
  - destruct (bool_decide (delete p h = ∅)) eqn:Hb; unfold del, on_db; cbn [db reachable];
      rewrite Hr; cbn [negb]; intros [= <-]; cbn [db reachable negb].
    + by rewrite lookup_delete_ne, lookup_delete_eq.
    + by rewrite lookup_delete_ne, lookup_insert_eq, lookup_delete_eq.
  - unfold del, on_db. rewrite Hr. cbn [negb]. intros [= <-]. cbn [db reachable negb].
    by rewrite lookup_delete_ne, Hk.
Qed.

(** [indexFile] up to the parse, for a file that is to be indexed. *)
Lemma indexFile_to_parse (md5 : string → string) (parsers : list Parser)
  (fs : string → option string) (now : Z) (file : string) (options : Options)
  (c : client) (parser : Parser) (content : string) :
  getParser parsers file = Some parser →
  fs file = Some content →
  force options = true ∨ shouldReindex md5 file content c = true →
  indexFile md5 parsers fs now file options c =
    ((if negb (skipDelete options) then deleteFileData file else ret tt) ;;
     parseResult <- match parse parser file content with
                    | Returns r => ret r
                    | Throws e => throw e
                    end ;;
     match parseResult with
     | Parsed functions =>
         r <- index now file functions ;;
         setFileHash now file (getContentHash md5 content) ;;
         ret {| skipped := false; functionsIndexed := FunctionIndexer.indexed r;
                CodebaseIndexer.errors := FunctionIndexer.errors r |}
     | _ => ret {| skipped := false; functionsIndexed := 0; CodebaseIndexer.errors := 1 |}
     end) c.
Proof.
  intros Hp Hfs Hgo. unfold indexFile, readFile. rewrite Hp, Hfs.
  unfold bind at 1. cbn [ret]. unfold bind at 1. unfold read.
  destruct Hgo as [-> | ->]; [reflexivity|]. by rewrite andb_false_r.
Qed.

(** C6, as stated, fails: when Babel throws on [a.js], [JavaScriptParser]
    returns an empty list of functions, which is a valid result: the file
    counts as processed without error and its fingerprint is stored. *)
Lemma parse_failure_is_indexed_as_empty :
  let r := indexFile exampleDigest [JavaScriptParser exampleBabel] exampleFs 5 "a.js"
             defaultOptions empty in
  exampleBabel "a.js" "function (" = None ∧
  fst r = Ok {| skipped := false; functionsIndexed := 0; CodebaseIndexer.errors := 0 |} ∧
  getFileHash "a.js" empty = None ∧
  getFileHash "a.js" (snd r) = Some (exampleDigest "function (").
Proof. vm_compute. repeat split; reflexivity. Qed.

(** C6, amended.  For a file that is to be indexed and whose parser
    throws, or returns a result that fails [validateResult], the run
    counts exactly one more error (and the file as processed in the
    second case), goes on with the remaining files from the state left by
    [deleteFileData], in which no [function:*] key has changed and no
    fingerprint has been stored for the file. *)
Theorem bad_parse_result_counts_one_error
  (md5 : string → string) (parsers : list Parser) (fs : string → option string)
  (now : Z) (file : string) (rest : list string) (options : Options)
  (acc : RunResult) (c : client) (parser : Parser) (content : string) :
  getParser parsers file = Some parser →
  fs file = Some content →
  force options = true ∨ shouldReindex md5 file content c = true →
  skipDelete options = true ∨ fst (deleteFileData file c) = Ok tt →
  match parse parser file content with
  | Returns r => validateResult r = false
  | Throws _ => True
  end →
  let c1 := if skipDelete options then c else after (deleteFileData file) c in
  let processed := match parse parser file content with
                   | Returns _ => true
                   | Throws _ => false
                   end in
  indexFiles md5 parsers fs now (file :: rest) options acc c =
    indexFiles md5 parsers fs now rest options (oneMoreError processed acc) c1 ∧
  (∀ k, startsWith "function:" k = true → db c1 !! k = db c !! k) ∧
  getFileHash file c1 = (if skipDelete options then getFileHash file c else None).
Proof.
  intros Hp Hfs Hgo Hdel Hbad c1 processed. subst c1 processed.
  assert (Hstep : ∃ c1, (if negb (skipDelete options) then deleteFileData file else ret tt) c
                        = (Ok tt, c1) ∧
                        c1 = (if skipDelete options then c else after (deleteFileData file) c)).
  { destruct (skipDelete options); cbn [negb].
    - by exists c.
    - destruct Hdel as [?|Hdel]; [discriminate|]. unfold after.
      destruct (deleteFileData file c) as [r c1]. cbn [fst] in Hdel. subst r.
      by exists c1. }
  destruct Hstep as (c1 & Hrun & Hc1). rewrite <- Hc1.
  split; [|split].
  - cbn [indexFiles]. unfold bind at 1. unfold try_catch. unfold bind at 1.
    rewrite (indexFile_to_parse md5 parsers fs now file options c parser content Hp Hfs Hgo).
    rewrite (bind_Ok _ _ c c1 tt Hrun).
    destruct (parse parser file content) as [r|e].
    + unfold bind, ret. cbv beta iota.
      destruct r as [| |functions]; [| |discriminate Hbad];
        cbv beta iota; cbn [skipped functionsIndexed CodebaseIndexer.errors];
        unfold oneMoreError; f_equal; f_equal; lia.
    + unfold bind, throw, ret. cbv beta iota. reflexivity.
  - intros k Hk. rewrite Hc1. destruct (skipDelete options); [reflexivity|].
    by apply deleteFileData_frame.
  - rewrite Hc1. destruct (skipDelete options) eqn:Hs; [reflexivity|].
    cbn [negb] in Hrun. unfold after. rewrite Hrun. cbn [snd].
    eapply deleteFileData_clears_hash. exact Hrun.
Qed.

Lemma bad_parse_result_counts_one_error_witness :
  let c1 := after (deleteFileData "a.js") fooIndexed in
  indexFiles exampleDigest [nullParser] exampleFs 5 ["a.js"; "b.js"] defaultOptions
    noFiles fooIndexed =
  indexFiles exampleDigest [nullParser] exampleFs 5 ["b.js"] defaultOptions
    (oneMoreError true noFiles) c1 ∧
  (∀ k, startsWith "function:" k = true → db c1 !! k = db fooIndexed !! k) ∧
  getFileHash "a.js" c1 = None.
Proof.
  apply (bad_parse_result_counts_one_error exampleDigest [nullParser] exampleFs 5
           "a.js" ["b.js"] defaultOptions noFiles fooIndexed nullParser "function (").
  - reflexivity.
  - reflexivity.
  - right. vm_compute. reflexivity.
  - right. vm_compute. reflexivity.
  - reflexivity.
Defined.

(** One file on an unreachable server: skipped when no parser takes it,
    one error otherwise, and the store is left as it was. *)
Lemma file_on_unreachable_store
  (md5 : string → string) (parsers : list Parser) (fs : string → option string)
  (now : Z) (file : string) (options : Options) (c : client) :
  reachable c = false →
  ∃ outcome,
    try_catch (r <- indexFile md5 parsers fs now file options ;; ret (Some r))
              (fun _ => ret None) c = (Ok outcome, c) ∧
    if parsable parsers file
    then outcome = None ∨
         outcome = Some {| skipped := false; functionsIndexed := 0;
                           CodebaseIndexer.errors := 1 |}
    else outcome = Some {| skipped := true; functionsIndexed := 0;
                           CodebaseIndexer.errors := 0 |}.
Proof.
  intros Hr. unfold parsable.
  destruct (getParser parsers file) as [parser|] eqn:Hp.
  2:{ eexists. split; [|reflexivity]. unfold try_catch, bind, indexFile. by rewrite Hp. }
  destruct (fs file) as [content|] eqn:Hfs.
  2:{ exists None. split; [|by left].
      unfold try_catch, bind, indexFile, readFile. by rewrite Hp, Hfs. }
  assert (Hgo : force options = true ∨ shouldReindex md5 file content c = true).
  { right. unfold shouldReindex. by rewrite getFileHash_unreachable. }
  unfold try_catch. unfold bind at 1.
  rewrite (indexFile_to_parse md5 parsers fs now file options c parser content Hp Hfs Hgo).
  destruct (skipDelete options); cbn [negb].
  2:{ exists None. split; [|by left].
      by rewrite (bind_Throw _ _ c c ConnectionError (deleteFileData_unreachable file c Hr)). }
  unfold bind at 1. cbn [ret].
  destruct (parse parser file content) as [r|e].
  2:{ exists None. split; [|by left]. reflexivity. }
  unfold bind at 1. cbn [ret].
  destruct r as [| |functions].
  - eexists. split; [reflexivity|by right].
  - eexists. split; [reflexivity|by right].
  - exists None. split; [|by left].
    unfold bind at 1. unfold index.
    destruct functions as [|fn fns].
    + cbn [ret]. by rewrite (bind_Throw _ _ c c ConnectionError
                               (setFileHash_unreachable now file _ c Hr)).
    + rewrite indexLoop_unreachable by exact Hr.
      by rewrite (bind_Throw _ _ c c ConnectionError
                    (setFileHash_unreachable now file _ c Hr)).
Qed.

Lemma indexFiles_unreachable
  (md5 : string → string) (parsers : list Parser) (fs : string → option string)
  (now : Z) (files : list string) (options : Options) (acc : RunResult) (c : client) :
  reachable c = false →
  ∃ processed,
    indexFiles md5 parsers fs now files options acc c =
      (Ok {| filesProcessed := filesProcessed acc + processed;
             filesSkipped :=
               filesSkipped acc + length (filter (fun f => parsable parsers f = false) files);
             totalFunctionsIndexed := totalFunctionsIndexed acc;
             totalErrors :=
               totalErrors acc + length (filter (fun f => parsable parsers f = true) files);
             stats := stats acc |}, c).
Proof.
  intros Hr. revert acc. induction files as [|file files IH]; intros acc.
  - exists 0%nat. cbn [indexFiles filter length]. unfold ret.
    rewrite !filter_nil. cbn [length]. rewrite !Nat.add_0_r. by destruct acc.
  - cbn [indexFiles].
    destruct (file_on_unreachable_store md5 parsers fs now file options c Hr)
      as (outcome & Hrun & Hout).
    rewrite (bind_Ok _ _ c c outcome Hrun). rewrite !filter_cons.
    destruct (parsable parsers file) eqn:Hp.
    + rewrite decide_False by discriminate. rewrite decide_True by reflexivity.
      destruct Hout as [-> | ->].
      * destruct (IH {| filesProcessed := filesProcessed acc;
                        filesSkipped := filesSkipped acc;
                        totalFunctionsIndexed := totalFunctionsIndexed acc;
                        totalErrors := S (totalErrors acc);
                        stats := stats acc |}) as (n & ->).
        exists n. cbn [filesProcessed filesSkipped totalFunctionsIndexed totalErrors stats length].
        do 2 f_equal. f_equal; lia.
      * cbn [skipped functionsIndexed CodebaseIndexer.errors].
        destruct (IH {| filesProcessed := S (filesProcessed acc);
                        filesSkipped := filesSkipped acc;
                        totalFunctionsIndexed := totalFunctionsIndexed acc + 0;
                        totalErrors := totalErrors acc + 1;
                        stats := stats acc |}) as (n & ->).
        exists (S n). cbn [filesProcessed filesSkipped totalFunctionsIndexed totalErrors stats length].
        do 2 f_equal. f_equal; lia.
    + rewrite decide_True by reflexivity. rewrite decide_False by discriminate.
      subst outcome. cbn [skipped].
      destruct (IH {| filesProcessed := filesProcessed acc;
                      filesSkipped := S (filesSkipped acc);
                      totalFunctionsIndexed := totalFunctionsIndexed acc;
                      totalErrors := totalErrors acc;
                      stats := stats acc |}) as (n & ->).
      exists n. cbn [filesProcessed filesSkipped totalFunctionsIndexed totalErrors stats length].
      do 2 f_equal. f_equal; lia.
Qed.

(** C7, as stated, fails: with the server unreachable for the whole run,
    [indexCodebase] returns its summary; the two JavaScript files are
    counted as one error each and the third file as skipped. *)
Lemma unreachable_store_does_not_abort_the_run :
  indexCodebase exampleDigest [JavaScriptParser exampleBabel] exampleFs 5
    ["a.js"; "b.js"; "README.md"] defaultOptions (perform (Connection false) empty) =
  (Ok {| filesProcessed := 0; filesSkipped := 1; totalFunctionsIndexed := 0;
         totalErrors := 2; stats := Some (noStats 5) |},
   perform (Connection false) empty).
Proof. vm_compute. reflexivity. Qed.

(** C7, amended.  A store that cannot be reached does not abort the run:
    the failed fingerprint read makes the file count as changed, the key
    scan of [deleteFileData] or the fingerprint write fails that file
    alone, and [indexCodebase] returns a summary with one error for every
    file that has a parser, no function indexed, the fallback statistics,
    and the store untouched. *)
Theorem unreachable_store_fails_each_file_only
  (md5 : string → string) (parsers : list Parser) (fs : string → option string)
  (now : Z) (files : list string) (options : Options) (c : client) :
  reachable c = false → files ≠ [] →
  ∃ processed,
    indexCodebase md5 parsers fs now files options c =
      (Ok {| filesProcessed := processed;
             filesSkipped := length (filter (fun f => parsable parsers f = false) files);
             totalFunctionsIndexed := 0;
             totalErrors := length (filter (fun f => parsable parsers f = true) files);
             stats := Some (noStats now) |}, c).
Proof.
  intros Hr Hne. unfold indexCodebase. rewrite try_rethrow.
  destruct files as [|file files]; [done|].
  destruct (indexFiles_unreachable md5 parsers fs now (file :: files) options noFiles c Hr)
    as (n & Hrun).
  exists n. rewrite (bind_Ok _ _ c c _ Hrun).
  unfold bind, lift, ret. by rewrite getStats_unreachable.
Qed.

Lemma unreachable_store_fails_each_file_only_witness :
  ∃ processed,
    indexCodebase exampleDigest [JavaScriptParser exampleBabel] exampleFs 5
      ["a.js"; "b.js"; "README.md"] defaultOptions (perform (Connection false) empty) =
      (Ok {| filesProcessed := processed;
             filesSkipped :=
               length (filter (fun f => parsable [JavaScriptParser exampleBabel] f = false)
                              ["a.js"; "b.js"; "README.md"]);
             totalFunctionsIndexed := 0;
             totalErrors :=
               length (filter (fun f => parsable [JavaScriptParser exampleBabel] f = true)
                              ["a.js"; "b.js"; "README.md"]);
             stats := Some (noStats 5) |},
       perform (Connection false) empty).
Proof.
  apply (unreachable_store_fails_each_file_only exampleDigest [JavaScriptParser exampleBabel]
           exampleFs 5 ["a.js"; "b.js"; "README.md"] defaultOptions
           (perform (Connection false) empty)).
  - reflexivity.
  - discriminate.
Defined.

End Indexing.

(** * Further properties of the store *)

Section StoreReads.
Import JS Redis RedisStore Spec.

Lemma functionKey_ne_fileMetadata (n : string) : functionKey n ≠ "file:metadata".
Proof. intros H. pose proof (functionKey_starts n) as S. by rewrite H in S. Qed.

Lemma getFunction_frame (n : string) (c c' : client) :
  reachable c' = reachable c →
  db c' !! functionKey n = db c !! functionKey n →
  getFunction n c' = getFunction n c.
Proof. intros Hr Hk. unfold getFunction, hgetall. by rewrite Hr, Hk. Qed.

Lemma getFunctionCalls_frame (n : string) (c c' : client) :
  reachable c' = reachable c →
  db c' !! callsKey n = db c !! callsKey n →
  getFunctionCalls n c' = getFunctionCalls n c.
Proof. intros Hr Hk. unfold getFunctionCalls, smembers. by rewrite Hr, Hk. Qed.

Lemma getFunctionCallers_frame (n : string) (c c' : client) :
  reachable c' = reachable c →
  db c' !! calledByKey n = db c !! calledByKey n →
  getFunctionCallers n c' = getFunctionCallers n c.
Proof. intros Hr Hk. unfold getFunctionCallers, smembers. by rewrite Hr, Hk. Qed.

(** X1.  Whatever the store and the path, [deleteFileData] leaves every
    function record and both edge sets of every function as they were. *)
Theorem deleteFileData_never_touches_functions (filePath functionName : string) (c : client) :
  let c' := after (deleteFileData filePath) c in
  getFunction functionName c' = getFunction functionName c ∧
  getFunctionCalls functionName c' = getFunctionCalls functionName c ∧
  getFunctionCallers functionName c' = getFunctionCallers functionName c.
Proof.
  intros c'. subst c'.
  pose proof (deleteFileData_reachable filePath c) as Hr.
  split; [|split].
  - apply getFunction_frame; [exact Hr|]. apply deleteFileData_frame, functionKey_starts.
  - apply getFunctionCalls_frame; [exact Hr|]. apply deleteFileData_frame, callsKey_starts.
  - apply getFunctionCallers_frame; [exact Hr|]. apply deleteFileData_frame, calledByKey_starts.
Qed.

(** X2.  After a [deleteFileData] that completes, the file has no stored
    fingerprint, so [shouldReindex] answers true for any content. *)
Theorem deleteFileData_forgets_fingerprint
  (md5 : string → string) (filePath : string) (c c' : client) :
  deleteFileData filePath c = (Ok tt, c') →
  getFileHash filePath c' = None ∧
  ∀ content, shouldReindex md5 filePath content c' = true.
Proof.
  intros H. apply deleteFileData_clears_hash in H. split; [exact H|].
  intros content. unfold shouldReindex. by rewrite H.
Qed.

Lemma deleteFileData_forgets_fingerprint_witness :
  getFileHash "a.js" (after (deleteFileData "a.js") fooIndexed) = None ∧
  ∀ content, shouldReindex exampleDigest "a.js" content
               (after (deleteFileData "a.js") fooIndexed) = true.
Proof.
  apply (deleteFileData_forgets_fingerprint exampleDigest "a.js" fooIndexed).
  vm_compute. reflexivity.
Defined.

(** X3.  A [setFunction] that succeeds with safe integers for the line
    numbers and the clock is read back by [getFunction] with the defaults
    applied ([endLine] 0 becomes [line], an empty [type] becomes
    [function]) and leaves the record of every other function as it
    was. *)
Theorem setFunction_getFunction_roundtrip
  (now : Z) (functionName : string) (metadata : Metadata.t) (c c' : client) :
  safeInteger (Metadata.line metadata) →
  safeInteger (Metadata.endLine metadata) →
  safeInteger now →
  setFunction now functionName metadata c = (Ok tt, c') →
  getFunction functionName c' = Some (storedInfo now metadata) ∧
  ∀ other, other ≠ functionName → getFunction other c' = getFunction other c.
Proof.
  intros _ _ _ H. apply setFunction_Ok in H as (Hr & h & ->). split.
  - apply (getFunction_after_hset now metadata h); [exact Hr|].
    unfold on_db. cbn [db]. apply lookup_insert_eq.
  - intros other Hne. apply getFunction_frame; [reflexivity|].
    unfold on_db. cbn [db]. apply lookup_insert_ne. intros E. apply Hne.
    symmetry. by apply functionKey_inj.
Qed.

Lemma setFunction_getFunction_roundtrip_witness :
  getFunction "bar" (after (setFunction 9 "bar" fooMetadata) fooIndexed) =
    Some (storedInfo 9 fooMetadata) ∧
  ∀ other, other ≠ "bar" →
    getFunction other (after (setFunction 9 "bar" fooMetadata) fooIndexed) =
    getFunction other fooIndexed.
Proof.
  apply (setFunction_getFunction_roundtrip 9 "bar" fooMetadata fooIndexed).
  - unfold safeInteger. vm_compute. discriminate.
  - unfold safeInteger. vm_compute. discriminate.
  - unfold safeInteger. vm_compute. discriminate.
  - vm_compute. reflexivity.
Defined.

(** X4.  A [setFunction] that throws has written nothing, and it throws
    only when the server is unreachable or the key holds a set. *)
Theorem setFunction_failure_writes_nothing
  (now : Z) (functionName : string) (metadata : Metadata.t) (c c' : client) (e : error) :
  setFunction now functionName metadata c = (Throw e, c') →
  c' = c ∧
  ((e = ConnectionError ∧ reachable c = false) ∨
   (e = ReplyError ∧ ∃ m, db c !! functionKey functionName = Some (RSet m))).
Proof.
  unfold setFunction. rewrite try_rethrow. unfold hset.
  destruct (reachable c); cbn [negb].
  - destruct (db c !! functionKey functionName) as [[h|m]|]; [discriminate| |discriminate].
    intros [= <- <-]. split; [reflexivity|]. right. split; [reflexivity|]. by exists m.
  - intros [= <- <-]. split; [reflexivity|]. by left.
Qed.

Lemma setFunction_failure_writes_nothing_witness :
  let c := perform (AddFunctionCall "a" "b") empty in
  after (setFunction 5 "a:calls" fooMetadata) c = c ∧
  ((ReplyError = ConnectionError ∧ reachable c = false) ∨
   (ReplyError = ReplyError ∧ ∃ m, db c !! functionKey "a:calls" = Some (RSet m))).
Proof.
  apply (setFunction_failure_writes_nothing 5 "a:calls" fooMetadata
           (perform (AddFunctionCall "a" "b") empty)).
  vm_compute. reflexivity.
Defined.

End StoreReads.

Section StoreWrites.
Import JS Redis RedisStore Spec.

Lemma fileMetaKey_ne_fileMetadata (p : string) : fileMetaKey p ≠ "file:metadata".
Proof.
  intros Heq. apply (inj (String.app "file:")) in Heq.
  pose proof (f_equal String.length Heq) as L. rewrite string_length_app in L.
  destruct p as [|x1 [|x2 [|x3 [|x4 p]]]]; cbn [String.length] in L; try lia.
  rewrite !string_app_cons, string_app_nil in Heq. congruence.
Qed.

(** What a successful [setFileHash] leaves in the fingerprint table. *)
Lemma setFileHash_Ok (now : Z) (p hash : string) (c c' : client) :
  setFileHash now p hash c = (Ok tt, c') →
  reachable c' = true ∧
  ∃ h, db c' !! "file:metadata" = Some (RHash ({[p := HStr hash]} ∪ h)).
Proof.
  unfold setFileHash. rewrite try_rethrow. unfold bind. unfold hset at 1.
  destruct (reachable c) eqn:Hr; cbn [negb]; [|discriminate].
  pose proof (fileMetaKey_ne_fileMetadata p) as Hne.
  assert (Hsecond : ∀ d, (hset (fileMetaKey p) {["lastIndexed" := HNum now]}
                            {| db := d; reachable := true |}) = (Ok tt, c') →
                         reachable c' = true ∧ db c' !! "file:metadata" = d !! "file:metadata").
  { intros d. unfold hset, on_db. cbn [db reachable negb].
    destruct (d !! fileMetaKey p) as [[h|m]|]; [| discriminate |];
      intros [= <-]; cbn [db reachable]; by rewrite lookup_insert_ne. }
  destruct (db c !! "file:metadata") as [[h|m]|] eqn:Hk; [| discriminate |].
  - unfold on_db. rewrite Hr. intros [Hr' Hd]%Hsecond. split; [exact Hr'|].
    exists h. by rewrite Hd, lookup_insert_eq.
  - unfold on_db. rewrite Hr. intros [Hr' Hd]%Hsecond. split; [exact Hr'|].
    exists ∅. by rewrite Hd, lookup_insert_eq, (right_id_L ∅ (∪)).
Qed.

(** The fingerprint read back after a successful [setFileHash]. *)
Lemma setFileHash_getFileHash (now : Z) (p hash : string) (c c' : client) :
  setFileHash now p hash c = (Ok tt, c') → getFileHash p c' = Some hash.
Proof.
  intros H. apply setFileHash_Ok in H as (Hr & h & Hk).
  unfold getFileHash, hget. rewrite Hr, Hk. cbn [negb].
  by rewrite (lookup_union_Some_l _ _ _ _ (lookup_singleton_eq p _)).
Qed.

(** X5.  After [setFileHash] has stored the digest of a content,
    [shouldReindex] answers false for a content with that digest and true
    for any other; an empty digest would count as no fingerprint. *)
Theorem setFileHash_then_shouldReindex
  (md5 : string → string) (now : Z) (filePath content : string) (c c' : client) :
  md5 content ≠ "" →
  setFileHash now filePath (getContentHash md5 content) c = (Ok tt, c') →
  getFileHash filePath c' = Some (md5 content) ∧
  ∀ content', shouldReindex md5 filePath content' c' =
              negb (bool_decide (md5 content' = md5 content)).
Proof.
  intros Hne H. apply setFileHash_getFileHash in H as Hg.
  unfold getContentHash in Hg.
  split; [exact Hg|]. intros content'. unfold shouldReindex. rewrite Hg.
  unfold getContentHash. by rewrite bool_decide_eq_false_2.
Qed.

Lemma setFileHash_then_shouldReindex_witness :
  let c' := after (setFileHash 7 "b.js" (getContentHash exampleDigest "let x")) empty in
  getFileHash "b.js" c' = Some (exampleDigest "let x") ∧
  ∀ content', shouldReindex exampleDigest "b.js" content' c' =
              negb (bool_decide (exampleDigest content' = exampleDigest "let x")).
Proof.
  apply (setFileHash_then_shouldReindex exampleDigest 7 "b.js" "let x" empty).
  - discriminate.
  - vm_compute. reflexivity.
Defined.

Lemma sadd_wrongtype (key member : string) (c : client) :
  reachable c = true → isHash (db c !! key) = true →
  sadd key member c = (Throw ReplyError, c).
Proof.
  intros Hr Hh. unfold sadd. rewrite Hr. cbn [negb].
  by destruct (db c !! key) as [[h|m]|].
Qed.

Lemma addFunctionCall_unfold (a b : string) (c : client) :
  addFunctionCall a b c = (sadd (callsKey a) b ;; sadd (calledByKey b) a) c.
Proof. apply try_rethrow. Qed.

(** The outcome of [addFunctionCall] on a reachable server. *)
Lemma addFunctionCall_cases (a b : string) (c : client) :
  reachable c = true →
  let d1 := <[callsKey a := RSet ({[b]} ∪ setAt (db c) (callsKey a))]> (db c) in
  let d2 := <[calledByKey b := RSet ({[a]} ∪ setAt (db c) (calledByKey b))]> d1 in
  addFunctionCall a b c =
    if isHash (db c !! callsKey a) then (Throw ReplyError, c)
    else if isHash (db c !! calledByKey b)
         then (Throw ReplyError, {| db := d1; reachable := reachable c |})
         else (Ok tt, {| db := d2; reachable := reachable c |}).
Proof.
  intros Hr d1 d2. rewrite addFunctionCall_unfold. unfold bind.
  destruct (isHash (db c !! callsKey a)) eqn:H1.
  { by rewrite sadd_wrongtype. }
  rewrite sadd_ok by assumption.
  assert (Hk : db (on_db (insert (callsKey a) (RSet ({[b]} ∪ setAt (db c) (callsKey a)))) c)
               !! calledByKey b = db c !! calledByKey b).
  { unfold on_db. cbn [db]. apply lookup_insert_ne, callsKey_ne_calledByKey. }
  destruct (isHash (db c !! calledByKey b)) eqn:H2.
  - rewrite sadd_wrongtype; [reflexivity|exact Hr|by rewrite Hk].
  - rewrite sadd_ok; [|exact Hr|by rewrite Hk].
    unfold on_db. cbn [db reachable]. subst d1 d2. do 3 f_equal.
    unfold setAt at 1. by rewrite lookup_insert_ne by apply callsKey_ne_calledByKey.
Qed.

(** X6.  [addFunctionCall] is idempotent on every store: repeated in the
    state that a first call has left, it has the same outcome as the
    first, success or the same error, and leaves that state as it is.
    This covers the call that fails half way, after its first [SADD]. *)
Theorem addFunctionCall_idempotent (callerFunction calledFunction : string) (c : client) :
  let first := addFunctionCall callerFunction calledFunction c in
  addFunctionCall callerFunction calledFunction (snd first) = (fst first, snd first).
Proof.
  set (a := callerFunction). set (b := calledFunction). cbv zeta.
  destruct (reachable c) eqn:Hr.
  2:{ assert (E : addFunctionCall a b c = (Throw ConnectionError, c)).
      { rewrite addFunctionCall_unfold. unfold bind. by rewrite sadd_unreachable. }
      rewrite E. cbn [fst snd]. exact E. }
  assert (Hne : calledByKey b ≠ callsKey a).
  { intros E. symmetry in E. by apply callsKey_ne_calledByKey in E. }
  rewrite (addFunctionCall_cases a b c Hr). cbv zeta.
  set (m1 := {[b]} ∪ setAt (db c) (callsKey a)).
  set (m2 := {[a]} ∪ setAt (db c) (calledByKey b)).
  destruct (isHash (db c !! callsKey a)) eqn:H1.
  { cbn [fst snd]. rewrite (addFunctionCall_cases a b c Hr). cbv zeta. by rewrite H1. }
  destruct (isHash (db c !! calledByKey b)) eqn:H2; cbn [fst snd].
  - rewrite addFunctionCall_cases by exact Hr. cbv zeta. cbn [db reachable].
    rewrite lookup_insert_eq. cbn [isHash].
    rewrite lookup_insert_ne by (apply not_eq_sym, Hne). rewrite H2.
    unfold setAt at 1. rewrite lookup_insert_eq.
    replace ({[b]} ∪ m1) with m1 by (subst m1; set_solver).
    by rewrite insert_insert_eq.
  - rewrite addFunctionCall_cases by exact Hr. cbv zeta. cbn [db reachable].
    rewrite lookup_insert_ne by exact Hne.
    rewrite !lookup_insert_eq. cbn [isHash].
    rewrite setAt_edge_calls, setAt_edge_callers, !decide_True by reflexivity.
    replace ({[b]} ∪ m1) with m1 by (subst m1; set_solver).
    replace ({[a]} ∪ m2) with m2 by (subst m2; set_solver).
    do 2 f_equal.
    rewrite (insert_id _ (callsKey a) (RSet m1)).
    + apply insert_id. apply lookup_insert_eq.
    + rewrite lookup_insert_ne by exact Hne.
      apply lookup_insert_eq.
Qed.

(** X7.  An [addFunctionCall] that succeeds adds exactly the one edge, on
    both sides: nothing else appears in or disappears from any calls or
    callers set. *)
Theorem addFunctionCall_adds_one_edge (callerFunction calledFunction : string) (c c' : client) :
  addFunctionCall callerFunction calledFunction c = (Ok tt, c') →
  (∀ x y, y ∈ getFunctionCalls x c' ↔
          y ∈ getFunctionCalls x c ∨ (x = callerFunction ∧ y = calledFunction)) ∧
  (∀ x y, x ∈ getFunctionCallers y c' ↔
          x ∈ getFunctionCallers y c ∨ (x = callerFunction ∧ y = calledFunction)).
Proof.
  intros H. destruct (reachable c) eqn:Hr.
  2:{ rewrite addFunctionCall_unfold in H. unfold bind in H.
      by rewrite sadd_unreachable in H. }
  rewrite (addFunctionCall_cases _ _ c Hr) in H. cbv zeta in H.
  destruct (isHash (db c !! callsKey callerFunction)); [discriminate|].
  destruct (isHash (db c !! calledByKey calledFunction)); [discriminate|].
  injection H as <-. split; intros x y.
  - rewrite !elem_of_getFunctionCalls. cbn [db reachable].
    rewrite setAt_edge_calls. destruct (decide (callerFunction = x)) as [->|Hne]; set_solver.
  - rewrite !elem_of_getFunctionCallers. cbn [db reachable].
    rewrite setAt_edge_callers. destruct (decide (calledFunction = y)) as [->|Hne]; set_solver.
Qed.

Lemma addFunctionCall_adds_one_edge_witness :
  let c' := after (addFunctionCall "c" "d") cycleStore in
  (∀ x y, y ∈ getFunctionCalls x c' ↔ y ∈ getFunctionCalls x cycleStore ∨ (x = "c" ∧ y = "d")) ∧
  (∀ x y, x ∈ getFunctionCallers y c' ↔
          x ∈ getFunctionCallers y cycleStore ∨ (x = "c" ∧ y = "d")).
Proof.
  apply (addFunctionCall_adds_one_edge "c" "d" cycleStore).
  vm_compute. reflexivity.
Defined.

End StoreWrites.

Section StoreFrames.
Import JS Redis RedisStore Spec.

Lemma after_bind {A B} (m : M A) (k : A → M B) (c : client) :
  after (x <- m ;; k x) c =
    match fst (m c) with
    | Ok a => after (k a) (after m c)
    | _ => after m c
    end.
Proof. unfold after, bind. by destruct (m c) as [[a|e|] c1]. Qed.

Lemma hset_keeps_members (key : string) (fields : gmap string hval) (c : client) (k : string) :
  match smembers k (after (hset key fields) c) with Ok l => l | _ => [] end =
  match smembers k c with Ok l => l | _ => [] end.
Proof.
  unfold after, hset, smembers, on_db. destruct c as [d r]. cbn [db reachable].
  destruct r; cbn [negb snd db reachable]; [|reflexivity].
  destruct (d !! key) as [[h|m]|] eqn:Hk; cbn [negb snd db reachable]; [| reflexivity |].
  - destruct (decide (key = k)) as [<-|Hne].
    + by rewrite lookup_insert_eq, Hk.
    + by rewrite lookup_insert_ne.
  - destruct (decide (key = k)) as [<-|Hne].
    + by rewrite lookup_insert_eq, Hk.
    + by rewrite lookup_insert_ne.
Qed.

Lemma sadd_keeps_record (key member : string) (c : client) (n : string) :
  getFunction n (after (sadd key member) c) = getFunction n c.
Proof.
  unfold after, sadd, getFunction, hgetall, on_db. destruct c as [d r]. cbn [db reachable].
  destruct r; cbn [negb snd db reachable]; [|reflexivity].
  destruct (d !! key) as [[h|m]|] eqn:Hk; cbn [negb snd db reachable]; [reflexivity | |].
  - destruct (decide (key = functionKey n)) as [E|Hne].
    + rewrite <- E. by rewrite lookup_insert_eq, Hk.
    + by rewrite lookup_insert_ne.
  - destruct (decide (key = functionKey n)) as [E|Hne].
    + rewrite <- E. rewrite lookup_insert_eq, Hk.
      by rewrite bool_decide_eq_true_2 by apply map_size_empty.
    + by rewrite lookup_insert_ne.
Qed.

(** X8.  Records and edges never disturb each other, whatever the names:
    [setFunction] leaves the calls and the callers of every function as
    they were, and [addFunctionCall] leaves what [getFunction] returns
    for every function as it was. *)
Theorem records_and_edges_are_independent
  (now : Z) (functionName : string) (metadata : Metadata.t) (a b other : string) (c : client) :
  getFunctionCalls other (after (setFunction now functionName metadata) c) =
    getFunctionCalls other c ∧
  getFunctionCallers other (after (setFunction now functionName metadata) c) =
    getFunctionCallers other c ∧
  getFunction other (after (addFunctionCall a b) c) = getFunction other c.
Proof.
  assert (E : after (setFunction now functionName metadata) c =
              after (hset (functionKey functionName) (functionFields now metadata)) c).
  { unfold after, setFunction. by rewrite try_rethrow. }
  rewrite E. split; [|split].
  - apply hset_keeps_members.
  - apply hset_keeps_members.
  - assert (E2 : after (addFunctionCall a b) c =
                 after (sadd (callsKey a) b ;; sadd (calledByKey b) a) c).
    { unfold after. by rewrite addFunctionCall_unfold. }
    rewrite E2, after_bind.
    destruct (fst (sadd (callsKey a) b c)); rewrite ?sadd_keeps_record; reflexivity.
Qed.

Lemma recordAt_frame (d d' : gmap string rval) (n : string) :
  d' !! functionKey n = d !! functionKey n → recordAt d n → recordAt d' n.
Proof. intros E (h & Hk & Hh). exists h. by rewrite E. Qed.

Lemma functionFields_params (now : Z) (md : Metadata.t) :
  functionFields now md !! "params" = Some (HJson (Metadata.params md)).
Proof. reflexivity. Qed.

Lemma run_command_spares_record (cmd : command) (c : client) (n : string) :
  sparesRecord n cmd → recordAt (db c) n → recordAt (db (snd (run_command cmd c))) n.
Proof.
  intros Hs Hrec.
  destruct (decide (commandKey cmd = functionKey n)) as [E|Hne].
  2:{ eapply recordAt_frame; [|exact Hrec]. apply run_command_frame. congruence. }
  destruct Hrec as (h & Hk & Hh & Hp).
  destruct cmd as [key fields|key m|key f|key]; cbn [commandKey sparesRecord] in *; subst key.
  - destruct Hs as [?|(now & md & ->)]; [done|].
    cbn [run_command]. unfold hset. destruct (reachable c); cbn [negb snd].
    + rewrite Hk. cbn [snd on_db db]. exists (functionFields now md ∪ h).
      rewrite lookup_insert_eq. split; [reflexivity|]. split.
      * intros Hempty. apply map_positive_l in Hempty.
        pose proof (functionFields_params now md) as Hf.
        rewrite Hempty in Hf. by rewrite lookup_empty in Hf.
      * rewrite (lookup_union_Some_l _ _ _ _ (functionFields_params now md)). by eexists.
    + by exists h.
  - cbn [run_command]. unfold sadd. destruct (reachable c); cbn [negb snd].
    + rewrite Hk. cbn [snd]. by exists h.
    + by exists h.
  - done.
  - done.
Qed.

Lemma run_pipeline_spares_record (cmds : list command) (k : nat) (c : client) (n : string) :
  Forall (sparesRecord n) cmds → recordAt (db c) n →
  recordAt (db (snd (run_pipeline cmds k c))) n.
Proof.
  intros Hs. revert k c. induction Hs as [|cmd cmds Hc _ IH]; intros k c Hrec; [exact Hrec|].
  cbn [run_pipeline].
  pose proof (run_command_spares_record cmd c n Hc Hrec) as H.
  destruct (run_command cmd c) as [[] c1]; by apply IH.
Qed.

Lemma functionCommands_spare (now : Z) (fn : BatchIndexer.BatchFn) (n : string) :
  Forall (sparesRecord n) (BatchIndexer.functionCommands now fn).
Proof.
  unfold BatchIndexer.functionCommands. constructor.
  - right. eauto.
  - induction (BatchIndexer.calls fn) as [|b bs IH]; cbn [flat_map app]; [constructor|].
    by repeat constructor.
Qed.

Lemma getFunction_is_Some (n : string) (c : client) :
  is_Some (getFunction n c) ↔ reachable c = true ∧ recordAt (db c) n.
Proof.
  unfold getFunction, hgetall, recordAt. destruct (reachable c); cbn [negb].
  2:{ split; [by intros [? ?]|by intros [? _]]. }
  destruct (db c !! functionKey n) as [[h|m]|].
  - case_bool_decide as Hsize.
    + apply map_size_empty_inv in Hsize. subst h. split; [by intros [? ?]|].
      intros [_ (h & [= <-] & Hh & _)]. done.
    + assert (h ≠ ∅) by (intros ->; by rewrite map_size_empty in Hsize).
      destruct (asParams (h !! "params")) as [ps|] eqn:Hp.
      * split; [|by eexists]. intros _. split; [reflexivity|].
        exists h. rewrite Hp. by repeat split.
      * split; [by intros [? ?]|]. intros [_ (h' & [= <-] & _ & Hs)].
        rewrite Hp in Hs. by destruct Hs.
  - split; [by intros [? ?]|]. by intros [_ (h & ? & _)].
  - rewrite bool_decide_eq_true_2 by apply map_size_empty.
    split; [by intros [? ?]|]. by intros [_ (h & ? & _)].
Qed.

Lemma perform_spares_record (o : op) (c : client) (n : string) :
  recordAt (db c) n → recordAt (db (perform o c)) n.
Proof.
  intros Hrec. destruct o; cbn [perform].
  - unfold after, setFunction. rewrite try_rethrow.
    apply (run_command_spares_record (HSet _ _)); [|exact Hrec]. right. eauto.
  - assert (E2 : after (addFunctionCall callerFunction calledFunction) c =
                 after (sadd (callsKey callerFunction) calledFunction ;;
                        sadd (calledByKey calledFunction) callerFunction) c).
    { unfold after. by rewrite addFunctionCall_unfold. }
    rewrite E2, after_bind.
    pose proof (run_command_spares_record (SAdd (callsKey callerFunction) calledFunction)
                  c n I Hrec) as H1.
    destruct (fst (sadd (callsKey callerFunction) calledFunction c)); try exact H1.
    apply (run_command_spares_record (SAdd _ _)); [exact I|exact H1].
  - eapply recordAt_frame; [|exact Hrec]. apply deleteFileData_frame, functionKey_starts.
  - eapply recordAt_frame; [|exact Hrec]. apply setFileHash_frame, functionKey_starts.
  - unfold after, BatchIndexer.batchIndexFunctions.
    destruct functions as [|fn fns]; [exact Hrec|].
    set (cmds := flat_map _ (fn :: fns)).
    assert (Hs : Forall (sparesRecord n) cmds).
    { subst cmds. apply Forall_flat_map, Forall_forall. intros f _.
      apply functionCommands_spare. }
    pose proof (run_pipeline_spares_record cmds 0 c n Hs Hrec) as H.
    unfold try_catch, bind, ret, exec.
    by destruct (run_pipeline cmds 0 c).
  - eapply recordAt_frame; [|exact Hrec]. apply batchDeleteFiles_frame, functionKey_starts.
  - exact Hrec.
Qed.

(** X9.  No sequence of store operations removes a function record: a
    function that [getFunction] returns is still returned after any
    number of [setFunction], [addFunctionCall], [deleteFileData],
    [setFileHash] and batch calls, whenever the server is reachable. *)
Theorem function_records_are_never_removed (ops : list op) (c : client) (functionName : string) :
  is_Some (getFunction functionName c) →
  reachable (performAll ops c) = true →
  is_Some (getFunction functionName (performAll ops c)).
Proof.
  intros [_ Hrec]%getFunction_is_Some Hr. apply getFunction_is_Some. split; [exact Hr|].
  clear Hr. revert c Hrec. induction ops as [|o ops IH]; intros c Hrec; [exact Hrec|].
  unfold performAll. cbn [fold_left]. apply IH. by apply perform_spares_record.
Qed.

Lemma function_records_are_never_removed_witness :
  is_Some (getFunction "foo"
    (performAll [DeleteFileData "a.js"; SetFunction 9 "bar" fooMetadata;
                 SetFileHash 9 "a.js" "0cc175b9"; BatchDeleteFiles ["a.js"];
                 AddFunctionCall "bar" "foo"] fooIndexed)).
Proof.
  apply function_records_are_never_removed.
  - vm_compute. eexists. reflexivity.
  - vm_compute. reflexivity.
Defined.

End StoreFrames.

(** * Further properties of the traversals *)

Section TraversalResults.
Import JS Redis RedisStore FunctionIndexer Spec.

Lemma fold_Set_add_NoDup (l acc : list string) :
  NoDup (acc ++ l) → fold_left (fun acc x => Set_add x acc) l acc = acc ++ l.
Proof.
  revert acc; induction l as [|x l IH]; intros acc Hnd; cbn [fold_left].
  - by rewrite app_nil_r.
  - assert (Hx : x ∉ acc).
    { apply NoDup_app in Hnd as (_ & Hd & _). intros Hin. apply (Hd x Hin). set_solver. }
    unfold Set_add, Set_has. rewrite bool_decide_eq_false_2 by exact Hx.
    rewrite IH; [by rewrite <- app_assoc|]. by rewrite <- app_assoc.
Qed.

Lemma getFunctionCallers_NoDup (f : string) (c : client) : NoDup (getFunctionCallers f c).
Proof.
  unfold getFunctionCallers, smembers. destruct (negb (reachable c)); [constructor|].
  destruct (db c !! calledByKey f) as [[h|m]|]; try constructor. apply NoDup_elements.
Qed.

(** X10.  [findAffectedFunctions] returns the direct callers of the start
    function, in the order of the set, and nothing else, for every
    positive [maxDepth]; for [maxDepth <= 0] it returns the empty list.
    The depth beyond 1 has no effect. *)
Theorem findAffected_is_the_direct_callers (c : client) (f : string) (maxDepth : Z) :
  findAffectedFunctions f maxDepth c =
    Ok (if (maxDepth <=? 0)%Z then [] else getFunctionCallers f c).
Proof.
  unfold findAffectedFunctions. rewrite findAffected_result by lia.
  destruct (maxDepth <=? 0)%Z; [reflexivity|].
  rewrite fold_Set_add_NoDup; [reflexivity|]. apply getFunctionCallers_NoDup.
Qed.

(** The root call of the tracer: it returns, and the children it gives
    the root are the direct callees. *)
Lemma trace_root (c : client) (f : string) (maxDepth : Z) :
  ∃ children V',
    _traceDependenciesRecursive (depthFuel maxDepth) c f ∅ 0 maxDepth = Ok (children, V') ∧
    map function children = (if (maxDepth <=? 0)%Z then [] else getFunctionCalls f c).
Proof.
  destruct (trace_total (depthFuel maxDepth) c maxDepth f ∅ 0) as (kids & V' & H).
  { unfold depthFuel. lia. }
  exists kids, V'. split; [exact H|].
  unfold depthFuel in H. cbn [_traceDependenciesRecursive] in H.
  destruct (maxDepth <=? 0)%Z; cbn [orb] in H; [by injection H as <- _|].
  rewrite bool_decide_eq_false_2 in H by set_solver.
  by apply traceCalls_functions in H.
Qed.

(** X11.  The root of the tree of [traceDependencies] is the start
    function at depth 0; for a positive [maxDepth] its children are the
    direct callees, one node each in the order of the set, and for
    [maxDepth <= 0] it has none.  With [maxDepth = 1] no child has
    children of its own. *)
Theorem trace_children_are_the_direct_callees (c : client) (f : string) (maxDepth : Z) :
  ∃ children,
    traceDependencies f maxDepth c = Ok (Node f children 0) ∧
    map function children = (if (maxDepth <=? 0)%Z then [] else getFunctionCalls f c) ∧
    Forall (fun ch => FunctionIndexer.depth ch = 1%Z) children ∧
    (maxDepth = 1%Z → Forall (fun ch => dependencies ch = []) children).
Proof.
  unfold traceDependencies.
  destruct (trace_root c f maxDepth) as (kids & V' & H & Hn).
  rewrite H. exists kids. split; [reflexivity|].
  pose proof (trace_depths _ _ _ _ _ _ _ _ H) as Hd.
  cbn [depthsOk] in Hd. apply andb_true_iff in Hd as [_ Hall].
  rewrite forallb_forall in Hall.
  split; [exact Hn|split].
  - apply Forall_forall. intros ch Hin%list_elem_of_In. apply Hall in Hin.
    apply andb_true_iff in Hin as [Hdepth _]. by apply Z.eqb_eq in Hdepth.
  - intros ->. apply Forall_forall. intros ch Hin%list_elem_of_In. apply Hall in Hin.
    apply andb_true_iff in Hin as [Hdepth Hok]. apply Z.eqb_eq in Hdepth.
    destruct ch as [g deps d]. cbn [FunctionIndexer.depth dependencies] in *. subst d.
    cbn [depthsOk] in Hok. destruct deps; [reflexivity|]. discriminate Hok.
Qed.

Lemma getFunctionCalls_unreachable (f : string) (c : client) :
  reachable c = false → getFunctionCalls f c = [].
Proof. intros H. unfold getFunctionCalls, smembers. by rewrite H. Qed.

Lemma getFunctionCallers_unreachable (f : string) (c : client) :
  reachable c = false → getFunctionCallers f c = [].
Proof. intros H. unfold getFunctionCallers, smembers. by rewrite H. Qed.

(** X12.  When the server cannot be reached the two traversals do not
    fail: the failed reads count as empty sets, and the results are the
    lone root and the empty list. *)
Theorem traversals_swallow_store_failures (c : client) (f : string) (maxDepth : Z) :
  reachable c = false →
  traceDependencies f maxDepth c = Ok (Node f [] 0) ∧
  findAffectedFunctions f maxDepth c = Ok [].
Proof.
  intros Hr. split.
  - unfold traceDependencies.
    destruct (trace_root c f maxDepth) as (kids & V' & -> & Hn).
    rewrite getFunctionCalls_unreachable in Hn by exact Hr.
    destruct kids; [reflexivity|]. by destruct (maxDepth <=? 0)%Z.
  - unfold findAffectedFunctions. rewrite findAffected_result by lia.
    rewrite getFunctionCallers_unreachable by exact Hr.
    by destruct (maxDepth <=? 0)%Z.
Qed.

Lemma traversals_swallow_store_failures_witness :
  traceDependencies "a" 5 (perform (Connection false) cycleStore) = Ok (Node "a" [] 0) ∧
  findAffectedFunctions "a" 5 (perform (Connection false) cycleStore) = Ok [].
Proof. apply traversals_swallow_store_failures. reflexivity. Defined.

(** X13.  The two directions agree on a store built with plain names:
    [g] is affected by [f] exactly when [f] is among the children of the
    root of the tree of [g]. *)
Theorem affected_iff_direct_dependency (ops : list op) (f g : string) (d1 d2 : Z) :
  forallb plainOp ops = true → (0 < d1)%Z → (0 < d2)%Z →
  let c := performAll ops empty in
  ∃ r children,
    findAffectedFunctions f d1 c = Ok r ∧
    traceDependencies g d2 c = Ok (Node g children 0) ∧
    (g ∈ r ↔ f ∈ map function children).
Proof.
  intros Hp H1 H2 c.
  destruct (trace_root c g d2) as (kids & V' & Ht & Hn).
  exists (getFunctionCallers f c), kids. split; [|split].
  - unfold findAffectedFunctions. rewrite findAffected_result by lia.
    replace (d1 <=? 0)%Z with false by (symmetry; apply Z.leb_gt; lia).
    rewrite fold_Set_add_NoDup; [reflexivity|]. apply getFunctionCallers_NoDup.
  - unfold traceDependencies. by rewrite Ht.
  - rewrite Hn. replace (d2 <=? 0)%Z with false by (symmetry; apply Z.leb_gt; lia).
    symmetry. apply edgeInv_symmetric, performAll_edgeInv; [exact Hp|apply edgeInv_empty].
Qed.

Lemma affected_iff_direct_dependency_witness :
  ∃ r children,
    findAffectedFunctions "c" 5 cycleStore = Ok r ∧
    traceDependencies "b" 2 cycleStore = Ok (Node "b" children 0) ∧
    ("b" ∈ r ↔ "c" ∈ map function children).
Proof.
  apply (affected_iff_direct_dependency
           [AddFunctionCall "a" "b"; AddFunctionCall "b" "c"; AddFunctionCall "c" "a"]
           "c" "b" 5 2); [reflexivity|lia|lia].
Defined.

End TraversalResults.

(** * Further properties of the indexers *)

Section IndexerTotality.
Import JS Redis RedisStore Spec.
Import FunctionIndexer Parsers CodebaseIndexer.

Lemma terminates_ret {A} (a : A) : terminates (ret a).
Proof. intros c. discriminate. Qed.

Lemma terminates_throw {A} (e : error) : terminates (@throw A e).
Proof. intros c. discriminate. Qed.

Lemma terminates_bind {A B} (m : M A) (k : A → M B) :
  terminates m → (∀ a, terminates (k a)) → terminates (x <- m ;; k x).
Proof.
  intros Hm Hk c. unfold bind. specialize (Hm c).
  destruct (m c) as [[a|e|] c1]; [apply Hk|discriminate|done].
Qed.

Lemma terminates_try_catch {A} (m : M A) (h : error → M A) :
  terminates m → (∀ e, terminates (h e)) → terminates (try_catch m h).
Proof.
  intros Hm Hh c. unfold try_catch. specialize (Hm c).
  destruct (m c) as [[a|e|] c1]; [discriminate|apply Hh|done].
Qed.

Lemma terminates_for_each {A} (l : list A) (body : A → M unit) :
  (∀ x, terminates (body x)) → terminates (for_each l body).
Proof.
  intros Hb. induction l as [|x l IH]; cbn [for_each]; [apply terminates_ret|].
  apply terminates_bind; [apply Hb|by intros _].
Qed.

Lemma terminates_command (cmd : command) : terminates (run_command cmd).
Proof. intros c. apply run_command_never_diverges. Qed.

Lemma terminates_setFunction (now : Z) (n : string) (md : Metadata.t) :
  terminates (setFunction now n md).
Proof.
  apply terminates_try_catch; [|intros; apply terminates_throw].
  apply (terminates_command (HSet _ _)).
Qed.

Lemma terminates_addFunctionCall (a b : string) : terminates (addFunctionCall a b).
Proof.
  apply terminates_try_catch; [|intros; apply terminates_throw].
  apply terminates_bind; [apply (terminates_command (SAdd _ _))|].
  intros _. apply (terminates_command (SAdd _ _)).
Qed.

Lemma terminates_setFileHash (now : Z) (p h : string) : terminates (setFileHash now p h).
Proof.
  apply terminates_try_catch; [|intros; apply terminates_throw].
  apply terminates_bind; [apply (terminates_command (HSet _ _))|].
  intros _. apply (terminates_command (HSet _ _)).
Qed.

Lemma terminates_indexFunction (now : Z) (file : string) (fn : Fn.t) :
  terminates (indexFunction now file fn).
Proof.
  apply terminates_bind; [apply terminates_setFunction|]. intros _.
  destruct (Fn.calls fn); [apply terminates_ret|].
  apply terminates_for_each. intros x. apply terminates_addFunctionCall.
Qed.

(** The scan loop of [deleteFileData] ends within [scanFuel]. *)
Lemma collectFunctions_terminates (fuel cursor : nat) (p : string) (fs : list string)
  (c : client) :
  (length (keys c) - cursor < fuel)%nat → collectFunctions fuel p cursor fs c ≠ Diverge.
Proof.
  revert cursor fs. induction fuel as [|fuel IH]; intros cursor fs Hf; [lia|].
  cbn [collectFunctions]. unfold scan.
  destruct (negb (reachable c)); [discriminate|].
  change (100 =? 0)%nat with false. cbv iota.
  destruct (cursor + 100 <? length (keys c))%nat eqn:Hlt.
  - apply Nat.ltb_lt in Hlt.
    replace ((cursor + 100 =? 0)%nat) with false by (symmetry; apply Nat.eqb_neq; lia).
    apply IH. lia.
  - rewrite Nat.eqb_refl. discriminate.
Qed.

Lemma terminates_deleteFileData (p : string) : terminates (deleteFileData p).
Proof.
  apply terminates_try_catch; [|intros; apply terminates_throw].
  apply terminates_bind.
  - intros c. cbn [fst]. apply collectFunctions_terminates. unfold scanFuel. lia.
  - intros functions. apply terminates_bind.
    + apply terminates_for_each. intros n.
      apply terminates_bind; [apply (terminates_command (Del _))|]. intros _.
      apply terminates_bind; [apply (terminates_command (Del _))|]. intros _.
      apply (terminates_command (Del _)).
    + intros _. apply terminates_bind; [apply (terminates_command (HDel _ _))|].
      intros _. apply (terminates_command (Del _)).
Qed.

Lemma getStats_returns (now : Z) (c : client) : ∃ s, getStats now c = Ok s.
Proof.
  unfold getStats. destruct (hlen "file:metadata" c) as [n| |] eqn:Hl; [|eauto|eauto].
  assert (Hr : reachable c = true).
  { unfold hlen in Hl. by destruct (reachable c). }
  rewrite countFunctions_all by exact Hr. eauto.
Qed.

(** The counters of [indexLoop]: each function adds one to one of them. *)
Lemma indexLoop_counts (now : Z) (file : string) (fns : list Fn.t) :
  ∀ i e c, ∃ r c',
    indexLoop now file fns i e c = (Ok r, c') ∧
    (indexed r + FunctionIndexer.errors r = i + e + length fns)%nat.
Proof.
  induction fns as [|fn fns IH]; intros i e c; cbn [indexLoop length].
  - eexists _, _. split; [reflexivity|]. cbn [indexed FunctionIndexer.errors]. lia.
  - unfold bind at 1. unfold try_catch. unfold bind at 1.
    pose proof (terminates_indexFunction now file fn c) as Ht.
    destruct (indexFunction now file fn c) as [[[]|err|] c1]; [| |done]; cbn [ret].
    + destruct (IH (S i) e c1) as (r & c' & -> & Hc). exists r, c'. split; [reflexivity|lia].
    + destruct (IH i (S e) c1) as (r & c' & -> & Hc). exists r, c'. split; [reflexivity|lia].
Qed.

(** X14.  [FunctionIndexer.index] always returns its two counters: a
    function whose write fails is counted as an error and the loop goes
    on, so that [indexed + errors] is the number of functions given. *)
Theorem index_counts_every_function (now : Z) (filePath : string) (functions : list Fn.t)
  (c : client) :
  ∃ r c', index now filePath functions c = (Ok r, c') ∧
          (indexed r + FunctionIndexer.errors r = length functions)%nat.
Proof.
  unfold index. destruct functions as [|fn fns].
  - eexists _, _. split; [reflexivity|reflexivity].
  - destruct (indexLoop_counts now filePath (fn :: fns) 0 0 c) as (r & c' & H & Hc).
    exists r, c'. split; [exact H|]. lia.
Qed.

Lemma terminates_index (now : Z) (file : string) (fns : list Fn.t) :
  terminates (index now file fns).
Proof.
  intros c. unfold index. destruct fns as [|fn fns]; [discriminate|].
  destruct (indexLoop_counts now file (fn :: fns) 0 0 c) as (r & c' & -> & _).
  discriminate.
Qed.

Lemma terminates_indexFile (md5 : string → string) (parsers : list Parser)
  (fs : string → option string) (now : Z) (file : string) (options : Options) :
  terminates (indexFile md5 parsers fs now file options).
Proof.
  unfold indexFile. destruct (getParser parsers file) as [parser|]; [|apply terminates_ret].
  apply terminates_bind.
  { unfold readFile. destruct (fs file); [apply terminates_ret|apply terminates_throw]. }
  intros content. apply terminates_bind; [intros c; discriminate|]. intros changed.
  destruct (negb (force options) && negb changed); [apply terminates_ret|].
  apply terminates_bind.
  { destruct (negb (skipDelete options)); [apply terminates_deleteFileData|apply terminates_ret]. }
  intros _. apply terminates_bind.
  { destruct (parse parser file content); [apply terminates_ret|apply terminates_throw]. }
  intros [| |functions]; try apply terminates_ret.
  apply terminates_bind; [apply terminates_index|]. intros r.
  apply terminates_bind; [apply terminates_setFileHash|]. intros _. apply terminates_ret.
Qed.

(** Each file moves one of the three counters of the run by one. *)
Lemma indexFiles_returns (md5 : string → string) (parsers : list Parser)
  (fs : string → option string) (now : Z) (files : list string) (options : Options) :
  ∀ acc c, ∃ r c',
    indexFiles md5 parsers fs now files options acc c = (Ok r, c') ∧
    (filesProcessed acc + filesSkipped acc ≤ filesProcessed r + filesSkipped r)%nat ∧
    (filesProcessed r + filesSkipped r ≤
       filesProcessed acc + filesSkipped acc + length files)%nat ∧
    stats r = stats acc.
Proof.
  induction files as [|file files IH]; intros acc c; cbn [indexFiles length].
  - exists acc, c. split; [reflexivity|]. split; [lia|]. split; [lia|reflexivity].
  - unfold bind at 1. unfold try_catch. unfold bind at 1.
    pose proof (terminates_indexFile md5 parsers fs now file options c) as Ht.
    destruct (indexFile md5 parsers fs now file options c) as [[res|err|] c1]; [| |done];
      cbn [ret].
    + destruct (skipped res).
      * match goal with |- context [indexFiles _ _ _ _ _ _ ?a c1] =>
          destruct (IH a c1) as (r & c' & -> & H1 & H2 & H3) end.
        cbn [filesProcessed filesSkipped stats] in *.
        exists r, c'. split; [reflexivity|]. split; [lia|]. split; [lia|exact H3].
      * match goal with |- context [indexFiles _ _ _ _ _ _ ?a c1] =>
          destruct (IH a c1) as (r & c' & -> & H1 & H2 & H3) end.
        cbn [filesProcessed filesSkipped stats] in *.
        exists r, c'. split; [reflexivity|]. split; [lia|]. split; [lia|exact H3].
    + match goal with |- context [indexFiles _ _ _ _ _ _ ?a c1] =>
        destruct (IH a c1) as (r & c' & -> & H1 & H2 & H3) end.
      cbn [filesProcessed filesSkipped stats] in *.
      exists r, c'. split; [reflexivity|]. split; [lia|]. split; [lia|exact H3].
Qed.

(** X15.  [indexCodebase] always returns its summary, whatever the state
    of the store and whatever fails for single files: every store or
    parser error is caught per file.  The files counted as processed or
    skipped are at most the files given, and without files the summary is
    all zeros and the store is not touched. *)
Theorem indexCodebase_always_returns_a_summary
  (md5 : string → string) (parsers : list Parser) (fs : string → option string)
  (now : Z) (files : list string) (options : Options) (c : client) :
  ∃ r c',
    indexCodebase md5 parsers fs now files options c = (Ok r, c') ∧
    (filesProcessed r + filesSkipped r ≤ length files)%nat ∧
    (files = [] → r = noFiles ∧ c' = c) ∧
    (files ≠ [] → is_Some (stats r)).
Proof.
  unfold indexCodebase. rewrite try_rethrow. destruct files as [|file files].
  - exists noFiles, c. split; [reflexivity|]. split; [cbn; lia|]. split; [done|done].
  - destruct (indexFiles_returns md5 parsers fs now (file :: files) options noFiles c)
      as (r & c' & Hrun & _ & Hle & _).
    rewrite (bind_Ok _ _ c c' r Hrun). unfold bind, lift, ret.
    destruct (getStats_returns now c') as (s & ->).
    eexists _, c'. split; [reflexivity|].
    cbn [filesProcessed filesSkipped stats noFiles] in *.
    split; [lia|]. split; [done|]. intros _. by eexists.
Qed.

End IndexerTotality.

Section IndexFileSkips.
Import JS Redis RedisStore Spec.
Import FunctionIndexer Parsers CodebaseIndexer.

Lemma bind_Ok_inv {A B} (m : M A) (k : A → M B) (c c' : client) (b : B) :
  (x <- m ;; k x) c = (Ok b, c') → ∃ a c1, m c = (Ok a, c1) ∧ k a c1 = (Ok b, c').
Proof.
  unfold bind. destruct (m c) as [[a|e|] c1]; [|discriminate|discriminate].
  intros H. by exists a, c1.
Qed.

(** X16.  Indexing is idempotent on an unchanged file: once [indexFile]
    has returned for a file whose parser gave a list of functions, a
    second [indexFile] without [force] reports the file as skipped and
    leaves the store exactly as it is. *)
Theorem unchanged_file_is_skipped
  (md5 : string → string) (parsers : list Parser) (fs : string → option string)
  (now now' : Z) (file : string) (options options' : Options) (c c' : client)
  (r : FileResult) (parser : Parser) (content : string) (functions : list Fn.t) :
  getParser parsers file = Some parser →
  fs file = Some content →
  parse parser file content = Returns (Parsed functions) →
  md5 content ≠ "" →
  force options' = false →
  indexFile md5 parsers fs now file options c = (Ok r, c') →
  indexFile md5 parsers fs now' file options' c' =
    (Ok {| skipped := true; functionsIndexed := 0; CodebaseIndexer.errors := 0 |}, c').
Proof.
  intros Hp Hfs Hparse Hne Hforce Hrun.
  assert (Hsame : shouldReindex md5 file content c' = false).
  { unfold indexFile, readFile in Hrun. rewrite Hp, Hfs in Hrun.
    unfold bind at 1 in Hrun. cbn [ret] in Hrun. unfold bind at 1 in Hrun. unfold read in Hrun.
    destruct (force options); cbn [negb andb] in Hrun.
    - apply bind_Ok_inv in Hrun as ([] & c1 & _ & Hrun). rewrite Hparse in Hrun.
      unfold bind at 1 in Hrun. cbn [ret] in Hrun.
      apply bind_Ok_inv in Hrun as (res & c2 & _ & Hrun).
      apply bind_Ok_inv in Hrun as ([] & c3 & Hset & Hret).
      injection Hret as _ <-.
      apply setFileHash_getFileHash in Hset. unfold getContentHash in Hset.
      unfold shouldReindex, getContentHash. rewrite Hset.
      rewrite bool_decide_eq_false_2 by exact Hne. by rewrite bool_decide_eq_true_2.
    - destruct (shouldReindex md5 file content c) eqn:Hch; cbn [negb] in Hrun.
      + apply bind_Ok_inv in Hrun as ([] & c1 & _ & Hrun). rewrite Hparse in Hrun.
        unfold bind at 1 in Hrun. cbn [ret] in Hrun.
        apply bind_Ok_inv in Hrun as (res & c2 & _ & Hrun).
        apply bind_Ok_inv in Hrun as ([] & c3 & Hset & Hret).
        injection Hret as _ <-.
        apply setFileHash_getFileHash in Hset. unfold getContentHash in Hset.
        unfold shouldReindex, getContentHash. rewrite Hset.
        rewrite bool_decide_eq_false_2 by exact Hne. by rewrite bool_decide_eq_true_2.
      + injection Hrun as _ <-. exact Hch. }
  unfold indexFile, readFile. rewrite Hp, Hfs. unfold bind at 1. cbn [ret].
  unfold bind at 1. unfold read. by rewrite Hsame, Hforce.
Qed.

Lemma unchanged_file_is_skipped_witness :
  let parsers := [JavaScriptParser exampleBabel] in
  let c' := after (indexFile exampleDigest parsers exampleFs 5 "b.js" defaultOptions) empty in
  indexFile exampleDigest parsers exampleFs 8 "b.js" defaultOptions c' =
    (Ok {| skipped := true; functionsIndexed := 0; CodebaseIndexer.errors := 0 |}, c').
Proof.
  intros parsers c'.
  apply (unchanged_file_is_skipped exampleDigest parsers exampleFs 5 8 "b.js"
           defaultOptions defaultOptions empty c'
           {| skipped := false; functionsIndexed := 1; CodebaseIndexer.errors := 0 |}
           (JavaScriptParser exampleBabel) "function g() { h(); }"
           [ {| Fn.name := "g"; Fn.line := 1; Fn.endLine := 1; Fn.params := [];
                Fn.calls := ["h"]; Fn.isAsync := false; Fn.isExported := false;
                Fn.type := "function" |} ]).
  - reflexivity.
  - reflexivity.
  - reflexivity.
  - discriminate.
  - reflexivity.
  - vm_compute. reflexivity.
Defined.

(** X17.  With [force] a file that has a parser is never reported as
    skipped, whatever fingerprint is stored: when [indexFile] returns, it
    has gone through parsing. *)
Theorem forced_file_is_never_skipped
  (md5 : string → string) (parsers : list Parser) (fs : string → option string)
  (now : Z) (file : string) (options : Options) (c c' : client) (r : FileResult) :
  is_Some (getParser parsers file) →
  force options = true →
  indexFile md5 parsers fs now file options c = (Ok r, c') →
  skipped r = false.
Proof.
  intros [parser Hp] Hforce Hrun. unfold indexFile, readFile in Hrun. rewrite Hp in Hrun.
  destruct (fs file) as [content|]; [|discriminate Hrun].
  unfold bind at 1 in Hrun. cbn [ret] in Hrun. unfold bind at 1 in Hrun. unfold read in Hrun.
  rewrite Hforce in Hrun. cbn [negb andb] in Hrun.
  apply bind_Ok_inv in Hrun as ([] & c1 & _ & Hrun).
  apply bind_Ok_inv in Hrun as (res & c2 & _ & Hrun).
  destruct res as [| |functions].
  - by injection Hrun as <- _.
  - by injection Hrun as <- _.
  - apply bind_Ok_inv in Hrun as (ir & c3 & _ & Hrun).
    apply bind_Ok_inv in Hrun as ([] & c4 & _ & Hrun).
    by injection Hrun as <- _.
Qed.

Lemma forced_file_is_never_skipped_witness :
  let parsers := [JavaScriptParser exampleBabel] in
  let options := {| force := true; skipDelete := false |} in
  let c1 := after (indexFile exampleDigest parsers exampleFs 5 "b.js" defaultOptions) empty in
  skipped {| skipped := false; functionsIndexed := 1; CodebaseIndexer.errors := 0 |} = false.
Proof.
  intros parsers options c1.
  apply (forced_file_is_never_skipped exampleDigest parsers exampleFs 8 "b.js" options c1
           (after (indexFile exampleDigest parsers exampleFs 8 "b.js" options) c1)).
  - eexists. reflexivity.
  - reflexivity.
  - vm_compute. reflexivity.
Defined.

End IndexFileSkips.

(** * Further properties of enumeration and of the batch operations *)

Section FullEnumeration.
Import JS Redis RedisStore Spec.

Lemma listedNames_app (l1 l2 : list string) :
  listedNames (l1 ++ l2) = listedNames l1 ++ listedNames l2.
Proof. unfold listedNames. by rewrite !filter_app, map_app. Qed.

Lemma getAllFunctions_page (cursor : nat) (c : client) :
  reachable c = true →
  getAllFunctions cursor 100 c =
    (if (cursor + 100 <? length (keys c))%nat then (cursor + 100)%nat else 0%nat,
     listedNames (take 100 (drop cursor (keys c)))).
Proof.
  intros Hr. unfold getAllFunctions, scan. rewrite Hr. cbn [negb].
  change (100 =? 0)%nat with false. cbv iota. reflexivity.
Qed.

(** The loop of [CodebaseIndexer.getAllFunctions] walks all keys. *)
Lemma allFunctionsFrom_lists (fuel cursor : nat) (acc : list string) (c : client) :
  reachable c = true → (length (keys c) - cursor < fuel)%nat →
  CodebaseIndexer.allFunctionsFrom fuel cursor acc c =
    Ok (acc ++ listedNames (drop cursor (keys c))).
Proof.
  intros Hr. revert cursor acc.
  induction fuel as [|fuel IH]; intros cursor acc Hf; [lia|].
  cbn [CodebaseIndexer.allFunctionsFrom]. rewrite getAllFunctions_page by exact Hr.
  set (window := take 100 (drop cursor (keys c))).
  assert (Hsplit : drop cursor (keys c) = window ++ drop (cursor + 100) (keys c)).
  { subst window. by rewrite <- drop_drop, take_drop. }
  destruct (cursor + 100 <? length (keys c))%nat eqn:Hlt.
  - apply Nat.ltb_lt in Hlt.
    replace ((cursor + 100 =? 0)%nat) with false by (symmetry; apply Nat.eqb_neq; lia).
    rewrite IH by lia. by rewrite Hsplit, listedNames_app, app_assoc.
  - apply Nat.ltb_ge in Hlt. rewrite Nat.eqb_refl.
    rewrite Hsplit, listedNames_app, (drop_ge (keys c)) by lia.
    change (listedNames []) with (@nil string). by rewrite app_nil_r.
Qed.

Lemma elem_of_keys (k : string) (c : client) : k ∈ keys c ↔ is_Some (db c !! k).
Proof.
  unfold keys. rewrite list_elem_of_fmap. split.
  - intros ([k' v] & -> & Hin). apply elem_of_map_to_list in Hin. by eexists.
  - intros [v Hv]. exists (k, v). split; [reflexivity|]. by apply elem_of_map_to_list.
Qed.

Lemma elem_of_listedNames (n : string) (ks : list string) :
  n ∈ listedNames ks ↔ isFunctionKey (functionKey n) = true ∧ functionKey n ∈ ks.
Proof.
  unfold listedNames. rewrite list_elem_of_fmap. split.
  - intros (k & -> & [Hk [Hg Hin]%list_elem_of_filter]%list_elem_of_filter).
    rewrite globMatch_function in Hg. apply startsWith_inv in Hg.
    rewrite Hg, replace_prefix, string_app_nil.
    change ("function:" +:+ slice (String.length "function:") k)
      with (functionKey (slice (String.length "function:") k)) in Hg.
    rewrite <- Hg. by split.
  - intros [Hk Hin]. exists (functionKey n). split.
    + unfold functionKey. by rewrite replace_prefix, string_app_nil.
    + apply list_elem_of_filter. split; [exact Hk|]. apply list_elem_of_filter.
      split; [|exact Hin]. rewrite globMatch_function. apply functionKey_starts.
Qed.

(** X18.  The loop of [CodebaseIndexer.getAllFunctions] always returns,
    and a name is in the list it returns exactly when the server is
    reachable, the key of the name exists and the key contains neither
    [:calls] nor [:called_by].  On an unreachable server the list is
    empty: the error of the scan is caught below the loop. *)
Theorem getAllFunctions_lists_the_stored_functions (c : client) :
  ∃ r, CodebaseIndexer.getAllFunctions c = Ok r ∧
       ∀ n, n ∈ r ↔ reachable c = true ∧
                    isFunctionKey (functionKey n) = true ∧
                    is_Some (db c !! functionKey n).
Proof.
  destruct (reachable c) eqn:Hr.
  - exists (listedNames (keys c)). split.
    + unfold CodebaseIndexer.getAllFunctions.
      rewrite allFunctionsFrom_lists by (exact Hr || unfold scanFuel; lia).
      by rewrite drop_0.
    + intros n. rewrite elem_of_listedNames, elem_of_keys. tauto.
  - exists []. split.
    + unfold CodebaseIndexer.getAllFunctions, scanFuel.
      cbn [CodebaseIndexer.allFunctionsFrom]. unfold getAllFunctions, scan.
      rewrite Hr. reflexivity.
    + intros n. split; [intros Hin; by apply elem_of_nil in Hin|]. intros [? _]. discriminate.
Qed.

End FullEnumeration.

Section BatchDelete.
Import JS Redis RedisStore Spec.

Lemma noFingerprint_getFileHash (p : string) (c : client) :
  noFingerprint (db c) p → getFileHash p c = None.
Proof.
  unfold noFingerprint, getFileHash, hget. destruct (negb (reachable c)); [done|].
  destruct (db c !! "file:metadata") as [[h|m]|]; [|done|done]. by intros ->.
Qed.

Lemma hdel_fingerprint (p q : string) (c : client) :
  reachable c = true →
  noFingerprint (db (snd (hdel "file:metadata" q c))) q ∧
  (noFingerprint (db c) p → noFingerprint (db (snd (hdel "file:metadata" q c))) p).
Proof.
  intros Hr. unfold hdel, noFingerprint, on_db. rewrite Hr. cbn [negb].
  destruct (db c !! "file:metadata") as [[h|m]|] eqn:Hk; cbn [snd]; [| by rewrite Hk |].
  - case_bool_decide; cbn [snd db].
    + by rewrite lookup_delete_eq.
    + rewrite lookup_insert_eq. split; [apply lookup_delete_eq|].
      intros Hp. rewrite lookup_delete. by case_decide.
  - by rewrite Hk.
Qed.

Lemma del_meta_fingerprint (p q : string) (c : client) :
  noFingerprint (db c) p → noFingerprint (db (snd (del (fileMetaKey q) c))) p.
Proof.
  unfold del, noFingerprint, on_db. destruct (negb (reachable c)); cbn [snd db]; [done|].
  by rewrite lookup_delete_ne by apply fileMetaKey_ne_fileMetadata.
Qed.

Lemma delete_pipeline_fingerprints (paths : list string) (k : nat) (c : client) (p : string) :
  reachable c = true →
  (p ∈ paths ∨ noFingerprint (db c) p) →
  noFingerprint
    (db (snd (run_pipeline
                (flat_map (fun q => [HDel "file:metadata" q; Del (fileMetaKey q)]) paths)
                k c))) p.
Proof.
  revert k c. induction paths as [|q paths IH]; intros k c Hr Hp; cbn [flat_map app run_pipeline].
  - destruct Hp as [Hin|Hp]; [by apply elem_of_nil in Hin|exact Hp].
  - cbn [run_command].
    destruct (hdel_fingerprint p q c Hr) as [Hq Hkeep].
    pose proof (run_command_reachable (HDel "file:metadata" q) c) as R1. cbn [run_command] in R1.
    assert (Hp1 : p ∈ paths ∨ noFingerprint (db (snd (hdel "file:metadata" q c))) p).
    { destruct Hp as [[->|Hin]%elem_of_cons|Hp]; [by right|by left|right; by apply Hkeep]. }
    rewrite Hr in R1.
    assert (Hstep : ∀ k1 c1, reachable c1 = true →
              (p ∈ paths ∨ noFingerprint (db c1) p) →
              noFingerprint (db (snd (
                match del (fileMetaKey q) c1 with
                | (Ok _, c') => run_pipeline (flat_map (fun q => [HDel "file:metadata" q;
                                   Del (fileMetaKey q)]) paths) k1 c'
                | (_, c') => run_pipeline (flat_map (fun q => [HDel "file:metadata" q;
                                   Del (fileMetaKey q)]) paths) (S k1) c'
                end))) p).
    { intros k1 c1 Hr1 Hp2.
      pose proof (run_command_reachable (Del (fileMetaKey q)) c1) as R2.
      cbn [run_command] in R2. rewrite Hr1 in R2.
      assert (Hp3 : p ∈ paths ∨ noFingerprint (db (snd (del (fileMetaKey q) c1))) p).
      { destruct Hp2 as [?|Hp2]; [by left|right; by apply del_meta_fingerprint]. }
      destruct (del (fileMetaKey q) c1) as [[] c2]; cbn [snd] in *; by apply IH. }
    destruct (hdel "file:metadata" q c) as [[] c1]; cbn [snd] in *; by apply Hstep.
Qed.

(** X19.  [batchDeleteFiles] never throws and never touches a function
    record or an edge set: the functions of the deleted files stay in the
    graph.  On a reachable server the fingerprint of every path given is
    gone afterwards; on an unreachable server the call completes all the
    same and has removed nothing. *)
Theorem batchDeleteFiles_removes_fingerprints_only (filePaths : list string) (c : client) :
  let c' := after (BatchIndexer.batchDeleteFiles filePaths) c in
  fst (BatchIndexer.batchDeleteFiles filePaths c) = Ok tt ∧
  (reachable c = true → ∀ p, p ∈ filePaths → getFileHash p c' = None) ∧
  (reachable c = false → c' = c) ∧
  (∀ n, getFunction n c' = getFunction n c ∧
        getFunctionCalls n c' = getFunctionCalls n c ∧
        getFunctionCallers n c' = getFunctionCallers n c).
Proof.
  intros c'. subst c'.
  set (cmds := flat_map (fun q => [HDel "file:metadata" q; Del (fileMetaKey q)]) filePaths).
  assert (Hrun : BatchIndexer.batchDeleteFiles filePaths c = (Ok tt, snd (run_pipeline cmds 0 c))).
  { unfold BatchIndexer.batchDeleteFiles. destruct filePaths as [|q qs]; [reflexivity|].
    fold cmds. unfold bind, ret, exec. by destruct (run_pipeline cmds 0 c). }
  assert (Hreach : reachable (after (BatchIndexer.batchDeleteFiles filePaths) c) = reachable c).
  { unfold after. rewrite Hrun. cbn [snd]. apply run_pipeline_reachable. }
  split; [by rewrite Hrun|]. split; [|split].
  - intros Hr p Hin. apply noFingerprint_getFileHash. unfold after. rewrite Hrun. cbn [snd].
    apply delete_pipeline_fingerprints; [exact Hr|by left].
  - intros Hr. unfold after. rewrite Hrun. cbn [snd].
    by rewrite run_pipeline_unreachable by exact Hr.
  - intros n. split; [|split].
    + apply getFunction_frame; [exact Hreach|].
      apply batchDeleteFiles_frame, functionKey_starts.
    + apply getFunctionCalls_frame; [exact Hreach|].
      apply batchDeleteFiles_frame, callsKey_starts.
    + apply getFunctionCallers_frame; [exact Hreach|].
      apply batchDeleteFiles_frame, calledByKey_starts.
Qed.

End BatchDelete.

(** * Pagination *)

Section PaginationFacts.
Import JS Redis Spec Pagination.

Lemma ceilDiv_spec (a b : Z) :
  (0 < b)%Z → ((ceilDiv a b - 1) * b < a ≤ ceilDiv a b * b)%Z.
Proof.
  intros Hb. unfold ceilDiv.
  pose proof (Z.mul_div_le (- a) b Hb).
  pose proof (Z.mul_succ_div_gt (- a) b Hb). nia.
Qed.

Lemma ceilDiv_nonneg (a b : Z) : (0 < b)%Z → (0 ≤ a)%Z → (0 ≤ ceilDiv a b)%Z.
Proof. intros Hb Ha. pose proof (ceilDiv_spec a b Hb). nia. Qed.

Lemma ceilDiv_lt (a b p : Z) : (0 < b)%Z → (p < ceilDiv a b ↔ p * b < a)%Z.
Proof. intros Hb. pose proof (ceilDiv_spec a b Hb). split; intros; nia. Qed.

(** The items of a page are a window of [pageSize] items. *)
Lemma paginate_items {A} (items : list A) (page pageSize : Z) :
  (0 < pageSize)%Z →
  fst (paginate items page pageSize) =
    take (Z.to_nat pageSize)
         (drop (Z.to_nat ((currentPage (snd (paginate items page pageSize)) - 1) * pageSize))
               items).
Proof.
  intros Hps. unfold paginate. cbn [fst snd currentPage]. unfold sliceList.
  set (n := Z.of_nat (length items)).
  set (cp := Z.max 1 (Z.min page (ceilDiv n pageSize))).
  set (start := ((cp - 1) * pageSize)%Z).
  assert (0 ≤ start)%Z by (subst start cp; nia).
  destruct (Z.le_ge_cases (start + pageSize) n) as [Hle|Hge].
  - rewrite Z.min_l by lia. f_equal. lia.
  - rewrite Z.min_r by lia.
    rewrite !take_ge; [reflexivity| |]; rewrite length_drop; lia.
Qed.

(** X20.  For a positive [pageSize] a page of [paginate] holds at most
    [pageSize] items; a [page] outside of [1 .. totalPages] shows page 1
    or the last page; [hasNextPage] holds exactly when items remain
    after [endIndex], and [hasPrevPage] exactly when the page shown is
    not the first. *)
Theorem paginate_page_facts {A} (items : list A) (page pageSize : Z) :
  (0 < pageSize)%Z →
  let r := paginate items page pageSize in
  (Z.of_nat (length (fst r)) ≤ pageSize)%Z ∧
  r = paginate items (currentPage (snd r)) pageSize ∧
  (hasNextPage (snd r) = true ↔ (endIndex (snd r) < totalItems (snd r))%Z) ∧
  (hasPrevPage (snd r) = true ↔ (1 < currentPage (snd r))%Z) ∧
  (1 ≤ currentPage (snd r))%Z.
Proof.
  intros Hps r. split; [|split; [|split; [|split]]].
  - subst r. rewrite paginate_items by exact Hps. rewrite length_take. lia.
  - subst r. unfold paginate. cbn [snd currentPage].
    set (n := Z.of_nat (length items)). set (N := ceilDiv n pageSize).
    replace (Z.max 1 (Z.min (Z.max 1 (Z.min page N)) N)) with (Z.max 1 (Z.min page N)) by lia.
    reflexivity.
  - subst r. unfold paginate. cbn [snd hasNextPage endIndex totalItems].
    set (n := Z.of_nat (length items)).
    set (cp := Z.max 1 (Z.min page (ceilDiv n pageSize))).
    rewrite Z.ltb_lt, (ceilDiv_lt n pageSize cp Hps). lia.
  - subst r. unfold paginate. cbn [snd hasPrevPage currentPage]. apply Z.ltb_lt.
  - subst r. unfold paginate. cbn [snd currentPage]. lia.
Qed.

Lemma paginate_page_facts_witness :
  let r := paginate ["a"; "b"; "c"; "d"; "e"] 9 2 in
  (Z.of_nat (length (fst r)) ≤ 2)%Z ∧
  r = paginate ["a"; "b"; "c"; "d"; "e"] (currentPage (snd r)) 2 ∧
  (hasNextPage (snd r) = true ↔ (endIndex (snd r) < totalItems (snd r))%Z) ∧
  (hasPrevPage (snd r) = true ↔ (1 < currentPage (snd r))%Z) ∧
  (1 ≤ currentPage (snd r))%Z.
Proof. apply (paginate_page_facts ["a"; "b"; "c"; "d"; "e"] 9 2). lia. Defined.

Lemma chunks_concat {A} (l : list A) (k N : nat) :
  concat (map (fun i => take k (drop (i * k) l)) (seq 0 N)) = take (N * k) l.
Proof.
  induction N as [|N IH]; [reflexivity|].
  rewrite seq_S, map_app, concat_app, IH. cbn [map concat Nat.add].
  rewrite app_nil_r, take_take_drop. f_equal. lia.
Qed.

(** X21.  For a positive [pageSize] the pages [1 .. totalPages] of
    [paginate], one after the other, are the items: nothing is shown
    twice and nothing is left out. *)
Theorem paginate_pages_cover_the_items {A} (items : list A) (pageSize : Z) :
  (0 < pageSize)%Z →
  let pages := Z.to_nat (totalPages (snd (paginate items 1 pageSize))) in
  concat (map (fun i => fst (paginate items (Z.of_nat (S i)) pageSize)) (seq 0 pages)) = items.
Proof.
  intros Hps pages. subst pages.
  set (n := Z.of_nat (length items)). set (N := ceilDiv n pageSize).
  change (totalPages (snd (paginate items 1 pageSize))) with N.
  pose proof (ceilDiv_spec n pageSize Hps) as Hs. fold N in Hs.
  assert (HN : (0 ≤ N)%Z) by (apply ceilDiv_nonneg; lia).
  rewrite (map_ext_in _ (fun i => take (Z.to_nat pageSize) (drop (i * Z.to_nat pageSize) items))).
  - rewrite chunks_concat. apply take_ge.
    rewrite <- (Z2Nat.inj_mul N pageSize HN (Z.lt_le_incl _ _ Hps)).
    clearbody N. unfold n in Hs. lia.
  - intros i Hi%in_seq. rewrite paginate_items by exact Hps.
    unfold paginate. cbn [snd currentPage]. fold n N.
    replace (Z.max 1 (Z.min (Z.of_nat (S i)) N)) with (Z.of_nat (S i)) by lia.
    do 2 f_equal. rewrite Z2Nat.inj_mul by lia. f_equal. lia.
Qed.

Lemma paginate_pages_cover_the_items_witness :
  let items := ["a"; "b"; "c"; "d"; "e"] in
  let pages := Z.to_nat (totalPages (snd (paginate items 1 2))) in
  concat (map (fun i => fst (paginate items (Z.of_nat (S i)) 2)) (seq 0 pages)) = items.
Proof. apply (paginate_pages_cover_the_items ["a"; "b"; "c"; "d"; "e"] 2). lia. Defined.

(** X22.  Of an empty list [paginate] shows page 1 of 0: no items, no
    next and no previous page, and a displayed range that starts at 1 and
    ends at 0. *)
Theorem paginate_empty_list {A} (page pageSize : Z) :
  (0 < pageSize)%Z →
  paginate (@nil A) page pageSize =
    ([], {| currentPage := 1; pageSize := pageSize; totalItems := 0; totalPages := 0;
            hasNextPage := false; hasPrevPage := false; startIndex := 1; endIndex := 0 |}).
Proof.
  intros Hps. unfold paginate. change (Z.of_nat (length (@nil A))) with 0%Z.
  assert (E : ceilDiv 0 pageSize = 0%Z).
  { pose proof (ceilDiv_spec 0 pageSize Hps). nia. }
  rewrite E. replace (Z.max 1 (Z.min page 0)) with 1%Z by lia.
  replace (Z.min ((1 - 1) * pageSize + pageSize) 0) with 0%Z by lia.
  reflexivity.
Qed.

Lemma paginate_empty_list_witness :
  paginate (@nil string) 3 20 =
    ([], {| currentPage := 1; pageSize := 20; totalItems := 0; totalPages := 0;
            hasNextPage := false; hasPrevPage := false; startIndex := 1; endIndex := 0 |}).
Proof. apply paginate_empty_list. lia. Defined.

(** X23.  [next()] of the pagination helper does not stop at the last
    page: when [hasMore()] is false it returns the items of the last
    page again and still advances the page counter, so that the [prev()]
    after it returns the last page once more. *)
Theorem helper_next_overshoots {A} (allItems : list A) (pageSize current : Z) :
  (0 < pageSize)%Z → allItems ≠ [] → (1 ≤ current)%Z →
  hasMore allItems pageSize current = false →
  let after_next := next allItems pageSize current in
  let after_prev := prev allItems pageSize (fst after_next) in
  fst after_next = (current + 1)%Z ∧
  snd after_next = getPage allItems pageSize current ∧
  snd after_prev = getPage allItems pageSize current ∧
  currentPage (snd (snd after_next)) = totalPages (snd (snd after_next)).
Proof.
  intros Hps Hne Hc Hmore. unfold hasMore in Hmore. apply Z.ltb_ge in Hmore.
  unfold next, prev, getPage. cbn [fst snd].
  set (n := Z.of_nat (length allItems)) in *. set (N := ceilDiv n pageSize) in *.
  assert (HN : (1 ≤ N)%Z).
  { pose proof (ceilDiv_spec n pageSize Hps). fold N in H.
    destruct allItems; [done|]. cbn [length] in n. nia. }
  assert (Hclamp : ∀ p, (N ≤ p)%Z → paginate allItems p pageSize = paginate allItems N pageSize).
  { intros p Hp. unfold paginate. fold n N.
    replace (Z.max 1 (Z.min p N)) with N by lia.
    replace (Z.max 1 (Z.min N N)) with N by lia. reflexivity. }
  split; [reflexivity|]. split; [|split].
  - rewrite (Hclamp (current + 1)%Z), (Hclamp current) by lia. reflexivity.
  - rewrite (Hclamp (Z.max 1 (current + 1 - 1))), (Hclamp current) by lia. reflexivity.
  - unfold paginate. cbn [snd currentPage totalPages]. fold n N. lia.
Qed.

Lemma helper_next_overshoots_witness :
  let items := ["a"; "b"; "c"] in
  let after_next := next items 2 2 in
  let after_prev := prev items 2 (fst after_next) in
  fst after_next = 3%Z ∧
  snd after_next = getPage items 2 2 ∧
  snd after_prev = getPage items 2 2 ∧
  currentPage (snd (snd after_next)) = totalPages (snd (snd after_next)).
Proof.
  apply (helper_next_overshoots ["a"; "b"; "c"] 2 2); [lia|discriminate|lia|reflexivity].
Defined.

(** X24.  [redisScan] passes on what the client returns: when the
    replies of the client lead from cursor 0 back to cursor 0, the
    generator ends after those calls, and the batches it has yielded are
    the key arrays of the replies in their order, without the empty ones.
    No key is added, dropped or deduplicated. *)
Theorem redisScan_yields_the_replies
  (redisClient : nat → string → nat → result (nat * list string))
  (pattern : string) (count fuel : nat) (replies : list (nat * list string)) :
  iteration redisClient pattern count 0 replies →
  (length replies ≤ fuel)%nat →
  redisScan redisClient fuel pattern count = Ok (filter (fun b => b ≠ []) (replies.*2)) ∧
  concat (filter (fun b => b ≠ []) (replies.*2)) = concat (replies.*2).
Proof.
  intros Hit Hfuel. split.
  - unfold redisScan. revert fuel Hfuel Hit. generalize 0%nat as cursor.
    induction replies as [|[next keys] rest IH]; intros cursor fuel Hfuel Hit;
      cbn [iteration] in Hit; [contradiction|].
    destruct Hit as [Hreply Hrest]. cbn [length] in Hfuel.
    destruct fuel as [|fuel]; [lia|].
    cbn [redisScanFrom]. rewrite Hreply. cbn [fmap list_fmap snd fst] in *.
    assert (Hy : match keys with [] => [] | _ => [keys] end
                 = filter (fun b : list string => b ≠ []) [keys]).
    { destruct keys; [reflexivity|]. rewrite filter_cons, decide_True by discriminate.
      reflexivity. }
    change (keys :: rest.*2) with ([keys] ++ rest.*2). rewrite filter_app, <- Hy.
    destruct rest as [|reply rest].
    + rewrite Hrest. cbn [Nat.eqb fmap list_fmap]. by rewrite filter_nil, app_nil_r.
    + destruct Hrest as [Hnext Hrest].
      replace (next =? 0)%nat with false by (symmetry; by apply Nat.eqb_neq).
      rewrite (IH next fuel); [reflexivity|cbn [length] in *; lia|exact Hrest].
  - clear. induction (replies.*2) as [|b bs IH]; [reflexivity|].
    rewrite filter_cons. destruct (decide (b ≠ [])) as [Hb|Hb].
    + cbn [concat]. by rewrite IH.
    + apply dec_stable in Hb. subst b. cbn [concat app]. exact IH.
Qed.

Lemma redisScan_yields_the_replies_witness :
  redisScan exampleClient 5 "function:*" 100 = Ok [["a"]; ["b"; "a"]] ∧
  concat [["a"]; ["b"; "a"]] = concat [["a"]; []; ["b"; "a"]].
Proof.
  apply (redisScan_yields_the_replies exampleClient "function:*" 100 5
           [(7%nat, ["a"]); (3%nat, []); (0%nat, ["b"; "a"])]).
  - cbn. repeat split; discriminate.
  - cbn. lia.
Defined.

End PaginationFacts.

(** * The pipeline path against the one-by-one path; the file counter *)

Section BatchAgainstSequential.
Import JS Redis RedisStore Spec.
Import FunctionIndexer BatchIndexer.

(** Commands that all succeed one by one leave no error reply in a
    pipeline and the same store. *)
Lemma run_pipeline_sequential (cmds : list command) :
  ∀ k c c', for_each cmds run_command c = (Ok tt, c') → run_pipeline cmds k c = (k, c').
Proof.
  induction cmds as [|cmd cmds IH]; intros k c c' H; cbn [for_each run_pipeline] in *.
  - unfold ret in H. by injection H as <-.
  - unfold bind in H. destruct (run_command cmd c) as [[u|e|] c1]; [|discriminate|discriminate].
    by apply IH.
Qed.

Lemma addFunctionCalls_commands (a : string) (calls : list string) :
  ∀ c, for_each calls (addFunctionCall a) c =
       for_each (flat_map (fun b => [SAdd (callsKey a) b; SAdd (calledByKey b) a]) calls)
                run_command c.
Proof.
  induction calls as [|b calls IH]; intros c; [reflexivity|].
  cbn [flat_map app for_each run_command]. unfold bind at 1 2.
  unfold addFunctionCall. rewrite try_rethrow. unfold bind at 1.
  destruct (sadd (callsKey a) b c) as [[u|e|] c1]; [|reflexivity|reflexivity].
  unfold bind at 2.
  destruct (sadd (calledByKey b) a c1) as [[u'|e|] c2]; [|reflexivity|reflexivity].
  apply IH.
Qed.

Lemma indexFunction_commands (now : Z) (filePath : string) (fn : Fn.t) (c : client) :
  indexFunction now filePath fn c =
    for_each (functionCommands now (asBatch filePath fn)) run_command c.
Proof.
  unfold indexFunction, functionCommands, asBatch.
  cbn [BatchIndexer.name BatchIndexer.metadata BatchIndexer.calls for_each run_command].
  unfold bind. unfold setFunction. rewrite try_rethrow.
  destruct (hset _ _ c) as [[u|e|] c1]; [|reflexivity|reflexivity].
  rewrite <- addFunctionCalls_commands. by destruct (Fn.calls fn).
Qed.

Lemma indexFunction_reachable (now : Z) (filePath : string) (fn : Fn.t) (c c' : client) :
  indexFunction now filePath fn c = (Ok tt, c') → reachable c = true.
Proof.
  unfold indexFunction, bind, setFunction. rewrite try_rethrow. unfold hset.
  destruct (reachable c); [reflexivity|]. cbn [negb]. discriminate.
Qed.

Lemma pipeline_of_sequential (now : Z) (filePath : string) (functions : list Fn.t) :
  ∀ k c c', for_each functions (indexFunction now filePath) c = (Ok tt, c') →
    run_pipeline (flat_map (functionCommands now) (map (asBatch filePath) functions)) k c
    = (k, c').
Proof.
  induction functions as [|fn rest IH]; intros k c c' H; cbn [for_each map flat_map] in *.
  - unfold ret in H. by injection H as <-.
  - unfold bind in H.
    destruct (indexFunction now filePath fn c) as [[[]|e|] c1] eqn:Hfn;
      [|discriminate|discriminate].
    rewrite indexFunction_commands in Hfn.
    rewrite run_pipeline_app, (run_pipeline_sequential _ k c c1 Hfn).
    cbn [fst snd]. by apply IH.
Qed.

(** X25.  The pipeline of [batchIndexFunctions] and the one-by-one writes
    of [indexFunction] agree when the latter all succeed: given the
    functions of one file with the metadata [indexFunction] builds and the
    same clock reading, the batch leaves the same store and reports every
    function as indexed. *)
Theorem batch_matches_one_by_one
  (now : Z) (filePath : string) (functions : list Fn.t) (c c' : client) :
  functions ≠ [] →
  for_each functions (indexFunction now filePath) c = (Ok tt, c') →
  batchIndexFunctions now (map (asBatch filePath) functions) c =
    (Ok {| indexed := length functions; FunctionIndexer.errors := 0 |}, c').
Proof.
  intros Hne H.
  assert (Hr : reachable c = true).
  { destruct functions as [|fn rest]; [congruence|]. cbn [for_each] in H. unfold bind in H.
    destruct (indexFunction now filePath fn c) as [[[]|e|] c1] eqn:Hfn;
      [|discriminate|discriminate].
    by eapply indexFunction_reachable. }
  pose proof (pipeline_of_sequential now filePath functions 0 c c' H) as Hp.
  destruct functions as [|fn rest]; [congruence|].
  unfold batchIndexFunctions. rewrite <- (length_map (asBatch filePath) (fn :: rest)).
  cbn [map] in *. unfold try_catch, bind, exec.
  rewrite Hp. reflexivity.
Qed.

Lemma batch_matches_one_by_one_witness :
  let fns := [ {| Fn.name := "f"; Fn.line := 1; Fn.endLine := 3; Fn.params := ["x"];
                  Fn.calls := ["g"; "h"]; Fn.isAsync := false; Fn.isExported := true;
                  Fn.type := "" |};
               {| Fn.name := "g"; Fn.line := 5; Fn.endLine := 0; Fn.params := [];
                  Fn.calls := ["h"]; Fn.isAsync := true; Fn.isExported := false;
                  Fn.type := "arrow" |} ] in
  batchIndexFunctions 7 (map (asBatch "a.js") fns) empty =
    (Ok {| indexed := 2; FunctionIndexer.errors := 0 |},
     after (for_each fns (indexFunction 7 "a.js")) empty).
Proof.
  intros fns.
  apply (batch_matches_one_by_one 7 "a.js" fns empty); [discriminate|].
  vm_compute. reflexivity.
Defined.

End BatchAgainstSequential.

Section FileCounter.
Import JS Redis RedisStore Spec.

Lemma countedKeys_unmatched (k : string) (l : list string) :
  globMatch "function:*" k = false → countedKeys (k :: l) = countedKeys l.
Proof.
  intros H. unfold countedKeys. rewrite filter_cons, decide_False; [reflexivity|].
  by rewrite H.
Qed.

Lemma countedKeys_insert_other (k : string) (v : rval) (c : client) :
  globMatch "function:*" k = false →
  countedKeys (keys (on_db (insert k v) c)) = countedKeys (keys c).
Proof.
  intros H. rewrite (countedKeys_perm _ _ (keys_insert k v c)).
  destruct (db c !! k); [reflexivity|]. by apply countedKeys_unmatched.
Qed.

Lemma fileMetaKey_unmatched (p : string) : globMatch "function:*" (fileMetaKey p) = false.
Proof. reflexivity. Qed.

(** The store after a successful [setFileHash]. *)
Lemma setFileHash_store (now : Z) (p hash : string) (c c' : client) :
  setFileHash now p hash c = (Ok tt, c') →
  reachable c = true ∧
  ∃ h v, (db c !! "file:metadata" = Some (RHash h) ∨
          (db c !! "file:metadata" = None ∧ h = ∅)) ∧
         c' = on_db (insert (fileMetaKey p) v)
                (on_db (insert "file:metadata" (RHash (<[p := HStr hash]> h))) c).
Proof.
  unfold setFileHash. rewrite try_rethrow. unfold bind. unfold hset at 1.
  destruct (reachable c) eqn:Hr; cbn [negb]; [|discriminate].
  assert (Hsecond : ∀ c1, hset (fileMetaKey p) {["lastIndexed" := HNum now]} c1 = (Ok tt, c') →
                          ∃ v, c' = on_db (insert (fileMetaKey p) v) c1).
  { intros c1. unfold hset. destruct (negb (reachable c1)); [discriminate|].
    destruct (db c1 !! fileMetaKey p) as [[h|m]|]; [| discriminate |];
      intros [= <-]; eauto. }
  destruct (db c !! "file:metadata") as [[h|m]|] eqn:Hk; [| discriminate |].
  - intros [v ->]%Hsecond. split; [reflexivity|]. exists h, v. split; [by left|].
    by rewrite insert_union_singleton_l.
  - intros [v ->]%Hsecond. split; [reflexivity|]. exists ∅, v. split; [by right|].
    by rewrite insert_empty.
Qed.

(** X26.  [setFileHash] moves the counters of [getStats] as a table of
    files should: a path that had a fingerprint leaves [filesIndexed] as
    it is, a new path adds one, and [functionsIndexed] does not change. *)
Theorem setFileHash_counts_each_file_once
  (now t t' : Z) (filePath hash : string) (c c' : client) :
  setFileHash now filePath hash c = (Ok tt, c') →
  ∃ s s', getStats t c = Ok s ∧ getStats t' c' = Ok s' ∧
          functionsIndexed s' = functionsIndexed s ∧
          filesIndexed s' = match hget "file:metadata" filePath c with
                            | Ok (Some _) => filesIndexed s
                            | _ => S (filesIndexed s)
                            end.
Proof.
  intros (Hr & h & v & Hk & ->)%setFileHash_store.
  pose proof (fileMetaKey_ne_fileMetadata filePath) as Hne.
  set (c1 := on_db (insert "file:metadata" (RHash (<[filePath := HStr hash]> h))) c).
  assert (Hl : hlen "file:metadata" c = Ok (size h)).
  { unfold hlen. rewrite Hr. cbn [negb].
    destruct Hk as [->|[-> ->]]; [reflexivity|]. by rewrite map_size_empty. }
  assert (Hl' : hlen "file:metadata" (on_db (insert (fileMetaKey filePath) v) c1)
                = Ok (size (<[filePath := HStr hash]> h))).
  { unfold hlen, c1, on_db. cbn [db reachable]. rewrite Hr. cbn [negb].
    rewrite lookup_insert_ne by exact Hne. by rewrite lookup_insert_eq. }
  eexists _, _. split; [apply (getStats_count t c _ Hl)|].
  split; [apply (getStats_count t' _ _ Hl')|].
  cbn [functionsIndexed filesIndexed]. split.
  - rewrite countedKeys_insert_other by apply fileMetaKey_unmatched.
    unfold c1. by rewrite countedKeys_insert_other.
  - rewrite map_size_insert. unfold hget. rewrite Hr. cbn [negb].
    destruct Hk as [->|[-> ->]]; [by destruct (h !! filePath)|].
    by rewrite lookup_empty.
Qed.

Lemma setFileHash_counts_each_file_once_witness :
  let c := after (setFileHash 3 "a.js" "h1") empty in
  let c' := after (setFileHash 7 "a.js" "h2") c in
  ∃ s s', getStats 8 c = Ok s ∧ getStats 9 c' = Ok s' ∧
          functionsIndexed s' = functionsIndexed s ∧
          filesIndexed s' = match hget "file:metadata" "a.js" c with
                            | Ok (Some _) => filesIndexed s
                            | _ => S (filesIndexed s)
                            end.
Proof.
  intros c c'. apply (setFileHash_counts_each_file_once 7 8 9 "a.js" "h2" c c').
  vm_compute. reflexivity.
Defined.

End FileCounter.
